(** * lazycodr: the credentials shell ([lazycodr/cli/config.py]) and the
      credential store it drives

    The development has three layers.

    - [Shell]: the command-line shell of [src/lazycodr/cli/config.py],
      embedded function by function in a state-and-exception monad over a
      [World] that holds the credentials file, the replies the user will
      type, and the log of console output and system calls.
    - [Core]: the credential store ([lazycodr.utils.credentials]), whose
      code is not part of the sources; it is modelled from the
      specification over an interface of primitives with their contracts.
    - [Reference]: one executable instance of the primitives, used to run
      the shell and the store on concrete inputs. *)

From Stdlib Require Import Strings.Byte.
From stdpp Require Import gmap strings list pretty.

(** ** Python values shared by both layers *)

Abbreviation bytes := (list byte).

(** The line feed of Python's ["\n"]. *)
Definition LF : string := String (Ascii.ascii_of_nat 10) EmptyString.

(** Exceptions that reach the shell.  A subclass of [TypeError] or
    [ValueError] is caught by the same [except] clause as its base class and
    is represented by the base class; [OtherError] stands for a class that is
    not a subclass of any class named in an [except] clause of the shell.
    [IncorrectPasswordError] is defined in the missing module and is taken
    not to derive from [TypeError] or [ValueError], as the separate clause
    of [get_exisiting_cm] for it supposes. *)
Inductive exn : Type :=
  | TypeError (msg : string)
  | ValueError (msg : string)
  | IncorrectPasswordError (message : string)
  | FileNotFoundError (msg : string)
  | UnboundLocalError (msg : string)
  | Abort                                   (* typer.Abort *)
  | OtherError (cls msg : string).

(** [str(e)] *)
Definition str_exn (e : exn) : string :=
  match e with
  | TypeError msg | ValueError msg | FileNotFoundError msg
  | UnboundLocalError msg => msg
  | IncorrectPasswordError message => message
  | Abort => ""
  | OtherError _ msg => msg
  end.

(** Modelled from the spec: the interface of [lazycodr.utils.credentials]
    that the shell imports (section 6).  The module is missing from the
    sources, so the shell is embedded over this interface and holds for
    every store behind it; [Core.api] below is the store of the
    specification.  The [nat] arguments are the state of the random source
    at the call.  The constructor, item assignment and [save] are taken to
    return normally. *)
Class CredentialsAPI : Type := {
  Manager : Type;
  (* CredentialsManager(password) *)
  cm_new : string -> nat -> Manager;
  (* CredentialsManager.load(CREDENTIALS_FILE, password), given what the path
     holds ([None]: no such file) *)
  cm_load : option bytes -> string -> Manager + exn;
  (* cm[key] = value *)
  cm_setitem : Manager -> string -> string -> Manager;
  (* cm.update_password(old, new) *)
  cm_update_password : Manager -> string -> string -> nat -> Manager + exn;
  (* cm.save(CREDENTIALS_FILE): the bytes left at the path *)
  cm_save : Manager -> nat -> bytes;
}.

Module Shell.

(** What the process does to the outside, in order. *)
Inductive event : Type :=
  | Print (text : string) (style : option string)   (* console.print *)
  | Prompt (text : string)                          (* typer.prompt(text, hide_input=True) *)
  | Confirm (text : string)                         (* typer.confirm(text) *)
  | Load (seen : option bytes) (password : string)  (* CredentialsManager.load, with what the path held *)
  | New (password : string)                         (* CredentialsManager(password) *)
  | UpdatePassword (old new : string)               (* cm.update_password(old, new) *)
  | Save (written : bytes)                          (* cm.save(CREDENTIALS_FILE) *)
  | Unlink.                                         (* os.unlink(str(CREDENTIALS_FILE)) *)

Record World : Type := mkWorld {
  file : option bytes;      (* contents of CREDENTIALS_FILE; None when absent *)
  replies : list string;    (* entries typer.prompt will return, in order *)
  answers : list bool;      (* answers the user will give to typer.confirm *)
  rng : nat;                (* state of the random source *)
  log : list event;         (* events so far, oldest first *)
}.

Inductive outcome (A : Type) : Type :=
  | Return (a : A)
  | Raise (e : exn)
  | OutOfFuel.
Arguments Return {A} a.
Arguments Raise {A} e.
Arguments OutOfFuel {A}.

Definition M (A : Type) : Type := World -> outcome A * World.

Definition ret {A} (a : A) : M A := fun w => (Return a, w).

Definition raise {A} (e : exn) : M A := fun w => (Raise e, w).

Definition bind {A B} (m : M A) (k : A -> M B) : M B := fun w =>
  match m w with
  | (Return a, w') => k a w'
  | (Raise e, w') => (Raise e, w')
  | (OutOfFuel, w') => (OutOfFuel, w')
  end.

Declare Scope shell_scope.
Delimit Scope shell_scope with shell.
Notation "x <- m ;; k" := (bind m (fun x => k))
  (at level 100, m at next level, right associativity) : shell_scope.
Notation "m ;; k" := (bind m (fun _ => k))
  (at level 100, right associativity) : shell_scope.
Local Open Scope shell_scope.

(** [try: body except <classes caught by h>: h e] *)
Definition try_except {A} (body : M A) (h : exn -> option (M A)) : M A := fun w =>
  match body w with
  | (Raise e, w') =>
      match h e with
      | Some handler => handler w'
      | None => (Raise e, w')
      end
  | r => r
  end.

Definition emit (e : event) (w : World) : World :=
  mkWorld (file w) (replies w) (answers w) (rng w) (log w ++ [e]).

Definition console_print (text : string) (style : option string) : M unit :=
  fun w => (Return tt, emit (Print text style) w).

(** [typer.prompt]: the next entry; end of input aborts.  An entry is what
    [typer.prompt] returns: called without a default it asks again on an
    empty line, so the inputs the program can meet have no empty reply
    ([entered] below). *)
Definition typer_prompt (text : string) : M string := fun w =>
  match replies w with
  | [] => (Raise Abort, emit (Prompt text) w)
  | r :: rs =>
      (Return r, emit (Prompt text) (mkWorld (file w) rs (answers w) (rng w) (log w)))
  end.

(** [typer.confirm]: the next yes/no answer; end of input aborts. *)
Definition typer_confirm (text : string) : M bool := fun w =>
  match answers w with
  | [] => (Raise Abort, emit (Confirm text) w)
  | a :: rest =>
      (Return a, emit (Confirm text) (mkWorld (file w) (replies w) rest (rng w) (log w)))
  end.

(** [os.unlink(str(CREDENTIALS_FILE))] *)
Definition os_unlink : M unit := fun w =>
  match file w with
  | None => (Raise (FileNotFoundError "No such file or directory"), emit Unlink w)
  | Some _ =>
      (Return tt, emit Unlink (mkWorld None (replies w) (answers w) (rng w) (log w)))
  end.

(** Draw from the random source. *)
Definition fresh : M nat := fun w =>
  (Return (rng w), mkWorld (file w) (replies w) (answers w) (S (rng w)) (log w)).

Definition lift {A} (r : A + exn) : M A :=
  match r with
  | inl a => ret a
  | inr e => raise e
  end.

(** Module-level names of [config.py], bound once when the module is
    imported. *)
Record Globals : Type := mkGlobals {
  CREDENTIALS_EXIST : bool;
  PSWD_PROMPT : string;
}.

Definition import_module (w : World) : Globals :=
  let exist := bool_decide (is_Some (file w)) in
  mkGlobals exist
    (if exist then "Confirm your password"
     else "Please setup a password so your credentials can be encrypted" +:+
          LF +:+ "Password").

Definition range (n : nat) : list nat := seq 0 n.

(** The prompt of attempt [i] in the two [for i in range(3)] loops:
    [what] when [i == 0], else [f'{what} (Attempt {i+1} / 3)']. *)
Definition attempt_prompt (what : string) (i : nat) : string :=
  if Nat.eqb i 0 then what
  else what +:+ " (Attempt " +:+ pretty (i + 1) +:+ " / 3)".

Section Commands.
Context `{API : CredentialsAPI}.
Variable G : Globals.

Definition CredentialsManager_load (password : string) : M Manager := fun w =>
  lift (cm_load (file w) password) (emit (Load (file w) password) w).

Definition CredentialsManager_new (password : string) : M Manager :=
  r <- fresh ;;
  fun w => (Return (cm_new password r), emit (New password) w).

Definition CredentialsManager_update_password (cm : Manager) (old new : string)
  : M Manager :=
  r <- fresh ;;
  fun w => lift (cm_update_password cm old new r) (emit (UpdatePassword old new) w).

Definition CredentialsManager_save (cm : Manager) : M unit :=
  r <- fresh ;;
  fun w =>
    let written := cm_save cm r in
    (Return tt,
     emit (Save written)
       (mkWorld (Some written) (replies w) (answers w) (rng w) (log w))).

Definition get_exisiting_cm (password : string) : M (option Manager) :=
  try_except
    (cm <- CredentialsManager_load password ;; ret (Some cm))
    (fun e =>
       match e with
       | TypeError _ | ValueError _ => Some (
           console_print "Oh no! The credentials file is corrupted."
                         (Some "bold red") ;;
           console_print ("Error: " +:+ str_exn e) None ;;
           os_unlink ;;
           console_print
             "For the security of your credentials, it has now been deleted"
             (Some "bold red") ;;
           console_print
             "Please recreate your credentials with the following command"
             (Some "bold green") ;;
           console_print "  lazycodr config credentials" (Some "bold green") ;;
           ret None)
       | IncorrectPasswordError message => Some (
           console_print message (Some "bold red") ;;
           ret None)
       | _ => None
       end).

Definition credentials_store (cm : Manager)
    (openai_api_key github_token : string) : M unit :=
  let cm := cm_setitem cm "openai_api_key" openai_api_key in
  let cm := cm_setitem cm "github_token" github_token in
  CredentialsManager_save cm ;;
  console_print "Credentials securely saved" (Some "bold green").

Definition credentials (openai_api_key github_token password : string) : M unit :=
  if CREDENTIALS_EXIST G then
    cm <- get_exisiting_cm password ;;
    match cm with
    | None => ret tt                      (* password validation failed *)
    | Some cm => credentials_store cm openai_api_key github_token
    end
  else
    cm <- CredentialsManager_new password ;;
    credentials_store cm openai_api_key github_token.

(** The [for i in range(3)] loop of [update_password], with its [else]
    clause; it yields the bindings of [curr_password] and [cm] at [break]. *)
Fixpoint update_password_attempts (ixs : list nat) : M (string * Manager) :=
  match ixs with
  | [] =>
      console_print "Too many incorrect attempts." (Some "bold red") ;;
      raise Abort
  | i :: rest =>
      let prompt := attempt_prompt "Enter current password" i in
      curr_password <- typer_prompt prompt ;;
      cm <- get_exisiting_cm curr_password ;;
      match cm with
      | Some cm => ret (curr_password, cm)   (* password validation success *)
      | None => update_password_attempts rest
      end
  end.

(** The [while True] loop of [update_password]. *)
Fixpoint new_password_loop (fuel : nat) : M string :=
  match fuel with
  | O => fun w => (OutOfFuel, w)
  | S fuel' =>
      new_password <- typer_prompt "Enter new password" ;;
      confirm <- typer_prompt "Re-enter new password" ;;
      if String.eqb new_password confirm then ret new_password
      else
        console_print ("Passwords do not match. Retry" +:+ LF)
                      (Some "bold red") ;;
        new_password_loop fuel'
  end.

(** [update_password] from the [while True] loop on; [cm] is [None] when
    the name is unbound. *)
Definition update_password_finish (curr_password : string)
    (cm : option Manager) : M unit :=
  new_password <- (fun w => new_password_loop (S (length (replies w))) w) ;;
  cm <- (if negb (String.eqb curr_password "") then
           match cm with
           | Some cm => CredentialsManager_update_password cm curr_password new_password
           | None => raise (UnboundLocalError "cm")
           end
         else CredentialsManager_new new_password) ;;
  CredentialsManager_save cm ;;
  console_print "Password updated successfully" (Some "bold green").

Definition update_password : M unit :=
  if CREDENTIALS_EXIST G then
    p <- update_password_attempts (range 3) ;;
    update_password_finish (fst p) (Some (snd p))
  else
    console_print "There are no existing passwords to update" (Some "bold red") ;;
    create <- typer_confirm "Would you like to create one?" ;;
    if negb create then ret tt
    else update_password_finish "" None.

(** The [for i in range(3)] loop of [delete_credentials], with its [else]
    clause. *)
Fixpoint delete_credentials_attempts (ixs : list nat) : M unit :=
  match ixs with
  | [] =>
      console_print "Too many incorrect attempts." (Some "bold red") ;;
      raise Abort
  | i :: rest =>
      let prompt := attempt_prompt "Enter your password" i in
      pswd <- typer_prompt prompt ;;
      cm <- get_exisiting_cm pswd ;;
      match cm with
      | Some _ =>
          os_unlink ;;
          console_print "Credentials deleted successfully" (Some "bold green")
      | None => delete_credentials_attempts rest
      end
  end.

Definition delete_credentials : M unit :=
  if negb (CREDENTIALS_EXIST G) then
    console_print "There are no credentials to delete" (Some "bold red")
  else
    delete <- typer_confirm "Are you sure you want to delete your credentials?" ;;
    if negb delete then raise Abort
    else delete_credentials_attempts (range 3).

End Commands.

(** *** Observations on a run, used to state the properties *)

(** The log [get_exisiting_cm] leaves on the corruption branch. *)
Definition corruption_events (seen : option bytes) (password msg : string)
  : list event :=
  [ Load seen password;
    Print "Oh no! The credentials file is corrupted." (Some "bold red");
    Print ("Error: " +:+ msg) None;
    Unlink;
    Print "For the security of your credentials, it has now been deleted"
          (Some "bold red");
    Print "Please recreate your credentials with the following command"
          (Some "bold green");
    Print "  lazycodr config credentials" (Some "bold green") ].

(** Exceptions no [except] clause of [get_exisiting_cm] names. *)
Definition unhandled (e : exn) : bool :=
  match e with
  | TypeError _ | ValueError _ | IncorrectPasswordError _ => false
  | _ => true
  end.

(** [e] is a prompt whose text starts with [what]. *)
Definition asks (what : string) (e : event) : bool :=
  match e with
  | Prompt text => String.prefix what text
  | _ => false
  end.

Definition count_asks (what : string) (l : list event) : nat :=
  length (List.filter (asks what) l).

Arguments count_asks : simpl never.

(** Running [m] adds at most [n] prompts that start with [what] to the log. *)
Definition asks_at_most {A} (what : string) (n : nat) (m : M A) : Prop :=
  forall w, count_asks what (log (snd (m w))) <= count_asks what (log w) + n.

(** Running [m] only appends to the log. *)
Definition appends {A} (m : M A) : Prop :=
  forall w, exists evs, log (snd (m w)) = log w ++ evs.

(** Running [m] never exhausts the fuel of a loop. *)
Definition terminates {A} (m : M A) : Prop :=
  forall w, fst (m w) <> OutOfFuel.

(** Every [Unlink] of the log comes after some [Confirm]. *)
Fixpoint unlinks_confirmed (confirmed : bool) (l : list event) : bool :=
  match l with
  | [] => true
  | Confirm _ :: rest => unlinks_confirmed true rest
  | Unlink :: rest => confirmed && unlinks_confirmed confirmed rest
  | _ :: rest => unlinks_confirmed confirmed rest
  end.

Section Observations.
Context `{API : CredentialsAPI}.

(** The attempts [ixs] of a retry loop all fail to validate: each prompt
    is answered, and [get_exisiting_cm] returns [None] on the answer.
    Yields the world after the last of them. *)
Fixpoint failed_attempts (what : string) (ixs : list nat) (w : World)
  : option World :=
  match ixs with
  | [] => Some w
  | i :: rest =>
      match typer_prompt (attempt_prompt what i) w with
      | (Return password, w1) =>
          match get_exisiting_cm password w1 with
          | (Return None, w2) => failed_attempts what rest w2
          | _ => None
          end
      | _ => None
      end
  end.

End Observations.

(** *** Further observations *)

(** Running [m] never writes the file: it leaves it as it was or removes
    it; and it draws nothing from the random source. *)
Definition never_writes {A} (m : M A) : Prop :=
  forall w,
    (file (snd (m w)) = file w \/ file (snd (m w)) = None)
    /\ rng (snd (m w)) = rng w.

(** The entries come in pairs that differ: rounds of the [while True] loop
    that are retried. *)
Fixpoint mismatched (typed : list string) : bool :=
  match typed with
  | [] => true
  | new_password :: confirm :: rest =>
      negb (String.eqb new_password confirm) && mismatched rest
  | [_] => false
  end.

(** What one round of the [while True] loop asks. *)
Definition round_prompts : list event :=
  [Prompt "Enter new password"; Prompt "Re-enter new password"].

(** The log of [n] retried rounds. *)
Fixpoint retried_rounds (n : nat) : list event :=
  match n with
  | O => []
  | S n' =>
      round_prompts
      ++ Print ("Passwords do not match. Retry" +:+ LF) (Some "bold red")
      :: retried_rounds n'
  end.

(** The log of one attempt of a retry loop that [load] answers with
    [IncorrectPasswordError]. *)
Definition wrong_password_events (what : string) (i : nat)
    (seen : option bytes) (password message : string) : list event :=
  [Prompt (attempt_prompt what i); Load seen password;
   Print message (Some "bold red")].

(** The replies are entries [typer.prompt] can hand to the program: it
    is called without a default, asks again on an empty entry and never
    returns the empty string. *)
Definition entered (w : World) : Prop :=
  Forall (fun r => r <> "") (replies w).

(** [e] is the construction of a new manager. *)
Definition is_new (e : event) : bool :=
  match e with
  | New _ => true
  | _ => false
  end.

(** Running [m] only appends to the log, and never a [New]. *)
Definition no_new {A} (m : M A) : Prop :=
  forall w, exists evs,
    log (snd (m w)) = log w ++ evs /\ Forall (fun e => is_new e = false) evs.

End Shell.

(** ** The credential store *)

Module Core.

(** Modelled from the spec: the parameters of the key derivation
    (section 3); the module [lazycodr.utils.credentials] is missing from the
    sources.  The salt is kept next to them, as in the layout of section 6. *)
Record KdfParameters : Type := mkKdf {
  algorithm : byte;     (* algorithm identifier *)
  cost : bytes;         (* work-factor parameters, as stored *)
}.

(** Modelled from the spec: the envelope persisted to disk (section 3), in
    the order of the layout of section 6. *)
Record Envelope : Type := mkEnvelope {
  version : byte;
  kdf : KdfParameters;
  salt : bytes;
  nonce : bytes;
  ciphertext : bytes;   (* ciphertext with its authentication tag *)
}.

(** Modelled from the spec: the leaf components of section 4 (Codec,
    KeyDerivation, Cipher, FileFormat) and the random source.  The spec
    fixes their contracts and leaves the algorithms and the byte layout open
    (section 9), so they are the operations of an interface. *)
Class Primitives : Type := {
  key : Type;
  key_eq_dec : EqDecision key;
  (* KeyDerivation: derive(password, salt, params) -> key *)
  derive : string -> bytes -> KdfParameters -> key;
  (* Cipher: seal(key, nonce, plaintext), open(key, nonce, ciphertext+tag);
     None is AuthenticationFailure *)
  seal : key -> bytes -> bytes -> bytes;
  open : key -> bytes -> bytes -> option bytes;
  (* Codec: encode(mapping), decode(bytes); None is MalformedPayload *)
  encode : gmap string string -> bytes;
  decode : bytes -> option (gmap string string);
  (* FileFormat: the byte layout of an envelope; None is MalformedFile *)
  write : Envelope -> bytes;
  read : bytes -> option Envelope;
  current_version : byte;
  current_kdf : KdfParameters;
  (* the random source, by its state *)
  random_salt : nat -> bytes;
  random_nonce : nat -> bytes;
}.
#[global] Existing Instance key_eq_dec.

(** Modelled from the spec: the contracts of the leaf components.
    - Codec (4.1): decoding an encoded mapping gives the mapping back.
    - Cipher (4.3): opening what was sealed under the same key and nonce
      gives the plaintext; a ciphertext that opens under one key fails
      authentication under every other key.
    - FileFormat (4.4): reading a written envelope of the current version
      gives the envelope back.
    Nothing is asked of KeyDerivation (4.2) beyond being a function of the
    password, the salt and the parameters: its keys have a fixed length, so
    distinct passwords may derive the same key. *)
Class Contracts (P : Primitives) : Prop := {
  decode_encode : forall m, decode (encode m) = Some m;
  open_seal : forall k n plaintext, open k n (seal k n plaintext) = Some plaintext;
  open_wrong_key : forall k k' n sealed plaintext,
    open k n sealed = Some plaintext -> k' <> k -> open k' n sealed = None;
  read_write : forall e, version e = current_version -> read (write e) = Some e;
}.

(** Modelled from the spec: the error taxonomy of section 7. *)
Inductive error : Type :=
  | IncorrectPassword
  | Corrupted
  | ContractViolation.

Section Store.
Context `{P : Primitives}.

(** Modelled from the spec: an unlocked manager (section 3) holds the
    mapping and the salt and parameters that produced its current key. *)
Record Manager : Type := mkManager {
  mapping : gmap string string;
  cur_kdf : KdfParameters;
  cur_salt : bytes;
  cur_key : key;
}.

(** Modelled from the spec: [create(password)] (section 4.5). *)
Definition create (password : string) (r : nat) : Manager :=
  let s := random_salt r in
  mkManager ∅ current_kdf s (derive password s current_kdf).

(** Modelled from the spec: [load(path, password)] (section 4.5), on the
    bytes of the file. *)
Definition load (image : bytes) (password : string) : Manager + error :=
  match read image with
  | None => inr Corrupted                                 (* MalformedFile *)
  | Some env =>
      let k := derive password (salt env) (kdf env) in
      match open k (nonce env) (ciphertext env) with
      | None => inr IncorrectPassword                     (* AuthenticationFailure *)
      | Some payload =>
          match decode payload with
          | None => inr Corrupted                         (* MalformedPayload *)
          | Some m => inl (mkManager m (kdf env) (salt env) k)
          end
      end
  end.

(** Modelled from the spec: the mapping a successful [load] unlocks. *)
Definition loaded_mapping (image : bytes) (password : string)
  : option (gmap string string) :=
  match load image password with
  | inl m => Some (mapping m)
  | inr _ => None
  end.

(** Modelled from the spec: [get(name)] (section 4.5); [None] is
    [NotFound]. *)
Definition get (m : Manager) (name : string) : option string :=
  mapping m !! name.

(** Modelled from the spec: [set(name, value)], insert or overwrite. *)
Definition set (m : Manager) (name value : string) : Manager :=
  mkManager (<[name := value]> (mapping m)) (cur_kdf m) (cur_salt m) (cur_key m).

(** Modelled from the spec: [delete(name)], with whether an entry was
    removed. *)
Definition delete (m : Manager) (name : string) : bool * Manager :=
  (bool_decide (is_Some (mapping m !! name)),
   mkManager (base.delete name (mapping m)) (cur_kdf m) (cur_salt m) (cur_key m)).

(** Modelled from the spec: the envelope [save] builds (section 4.5): a
    fresh nonce, the manager's current salt and parameters. *)
Definition envelope_of (m : Manager) (r : nat) : Envelope :=
  let n := random_nonce r in
  mkEnvelope current_version (cur_kdf m) (cur_salt m) n
             (seal (cur_key m) n (encode (mapping m))).

(** Modelled from the spec: the bytes [save(path)] leaves at the path. *)
Definition save (m : Manager) (r : nat) : bytes := write (envelope_of m r).

(** Modelled from the spec: [update_password(old, new)] (section 4.5). *)
Definition update_password (m : Manager) (old_password new_password : string)
    (r : nat) : Manager + error :=
  if decide (derive old_password (cur_salt m) (cur_kdf m) = cur_key m) then
    let s := random_salt r in
    inl (mkManager (mapping m) current_kdf s (derive new_password s current_kdf))
  else inr ContractViolation.

(** Modelled from the spec: the errors of the store as the Python
    exceptions the shell catches ([IncorrectPassword] and [Corrupted] of
    section 6); the shell reads [TypeError] and [ValueError] as corruption. *)
Definition to_exn (e : error) : exn :=
  match e with
  | IncorrectPassword => IncorrectPasswordError "Incorrect password"
  | Corrupted => ValueError "malformed credentials file"
  | ContractViolation => OtherError "AssertionError" "old password does not match"
  end.

(** Modelled from the spec: a result of the store, as returned or raised. *)
Definition to_python {A} (r : A + error) : A + exn :=
  match r with
  | inl a => inl a
  | inr e => inr (to_exn e)
  end.

(** Modelled from the spec: the store behind the interface the shell
    imports (section 6).  The spec does not say what [load] does when the
    path holds no file; opening a missing file in Python raises
    [FileNotFoundError]. *)
#[export] Instance api : CredentialsAPI :=
  Build_CredentialsAPI Manager
    create
    (fun f password =>
       match f with
       | None => inr (FileNotFoundError "No such file or directory")
       | Some image => to_python (load image password)
       end)
    set
    (fun m old new r => to_python (update_password m old new r))
    save.

(** *** Atomic replacement of the file (section 5) *)

(** Modelled from the spec: the steps of the write discipline of [save]
    (section 5): acquire a temporary file, write all of the envelope, flush,
    rename over the target. *)
Inductive fs_op : Type :=
  | OpenTemp (p : string)
  | WriteByte (p : string) (b : byte)
  | Flush (p : string)
  | Rename (src dst : string).

(** Modelled from the spec: one step on the filesystem, a map from paths
    to contents.  The rename replaces the target in one step. *)
Definition fs_step (s : gmap string bytes) (op : fs_op) : gmap string bytes :=
  match op with
  | OpenTemp p => <[p := []]> s
  | WriteByte p b =>
      match s !! p with
      | Some old => <[p := old ++ [b]]> s
      | None => s
      end
  | Flush p => s
  | Rename src dst =>
      match s !! src with
      | Some content => <[dst := content]> (base.delete src s)
      | None => s
      end
  end.

(** Modelled from the spec: the steps in order. *)
Definition fs_run (ops : list fs_op) (s : gmap string bytes) : gmap string bytes :=
  foldl fs_step s ops.

(** Modelled from the spec: scoped acquisition of a temporary file, full
    write, flush, then atomic rename over the target path. *)
Definition write_atomically (tmp target : string) (content : bytes) : list fs_op :=
  OpenTemp tmp :: map (WriteByte tmp) content ++ [Flush tmp; Rename tmp target].

(** Modelled from the spec: [save(path)] as the steps it takes on the
    filesystem. *)
Definition save_steps (m : Manager) (r : nat) (tmp target : string) : list fs_op :=
  write_atomically tmp target (save m r).

(** Modelled from the spec: an interruption after [n] steps. *)
Definition interrupted (n : nat) (ops : list fs_op) (s : gmap string bytes)
  : gmap string bytes :=
  fs_run (take n ops) s.

End Store.

End Core.

(** ** A reference instance of the primitives

    The spec leaves the algorithms and the byte layout of the leaf
    components open (section 9).  This module makes one choice, the simplest
    that meets the contracts, so that the store and the shell can be run on
    concrete inputs.  Every byte string is written as a frame: its bytes
    with [x00] and [x01] escaped, closed by [x00].  The cipher stores the key
    and the nonce next to the plaintext and compares them on opening: it
    gives no secrecy and only serves to evaluate the model. *)

Module Reference.

#[global] Instance byte_eq_dec : EqDecision byte := fun x y =>
  match Byte.eqb x y as c return Byte.eqb x y = c -> Decision (x = y) with
  | true => fun H => left (byte_dec_bl x y H)
  | false => fun H => right (eqb_false H)
  end eq_refl.

Definition escape (b : byte) : bytes :=
  if Byte.eqb b x00 then [x01; x01]
  else if Byte.eqb b x01 then [x01; x02]
  else [b].

Definition frame (payload : bytes) : bytes :=
  concat (map escape payload) ++ [x00].

Definition frames (l : list bytes) : bytes := concat (map frame l).

(** Put a byte in front of the frame being read. *)
Definition push (b : byte) (l : list bytes) : option (list bytes) :=
  match l with
  | [] => None               (* bytes after the last closing x00 *)
  | f :: rest => Some ((b :: f) :: rest)
  end.

Fixpoint unframes (b : bytes) : option (list bytes) :=
  match b with
  | [] => Some []
  | x :: rest =>
      if Byte.eqb x x00 then cons [] <$> unframes rest
      else if Byte.eqb x x01 then
        match rest with
        | y :: rest' =>
            if Byte.eqb y x01 then unframes rest' ≫= push x00
            else if Byte.eqb y x02 then unframes rest' ≫= push x01
            else None
        | [] => None
        end
      else unframes rest ≫= push x
  end.

(** Codec: the pairs of the mapping, key then value, each as a frame. *)
Definition fields (m : gmap string string) : list bytes :=
  concat (map (fun kv : string * string =>
                 [String.list_byte_of_string kv.1; String.list_byte_of_string kv.2])
              (map_to_list m)).

Fixpoint pairs (l : list bytes) : option (list (string * string)) :=
  match l with
  | [] => Some []
  | k :: v :: rest =>
      cons (String.string_of_list_byte k, String.string_of_list_byte v) <$> pairs rest
  | _ => None
  end.

Definition encode (m : gmap string string) : bytes := frames (fields m).

Definition decode (b : bytes) : option (gmap string string) :=
  l ← unframes b; ps ← pairs l; Some (list_to_map ps).

(** KeyDerivation: the key is the password with the salt and parameters. *)
Definition derive (password : string) (salt : bytes) (kdf : Core.KdfParameters) : bytes :=
  frames [String.list_byte_of_string password; salt;
          [Core.algorithm kdf]; Core.cost kdf].

(** Cipher. *)
Definition seal (k nonce plaintext : bytes) : bytes := frames [k; nonce; plaintext].

Definition open (k nonce sealed : bytes) : option bytes :=
  match unframes sealed with
  | Some [k'; nonce'; plaintext] =>
      if decide (k' = k ∧ nonce' = nonce) then Some plaintext else None
  | _ => None
  end.

(** FileFormat. *)
Definition current_version : byte := x01.

Definition write (e : Core.Envelope) : bytes :=
  frames [[Core.version e]; [Core.algorithm (Core.kdf e)]; Core.cost (Core.kdf e);
          Core.salt e; Core.nonce e; Core.ciphertext e].

Definition read (image : bytes) : option Core.Envelope :=
  match unframes image with
  | Some [[v]; [a]; c; s; n; ct] =>
      if decide (v = current_version)
      then Some (Core.mkEnvelope v (Core.mkKdf a c) s n ct)
      else None
  | _ => None
  end.

Definition current_kdf : Core.KdfParameters := Core.mkKdf x01 [x03; x10].

(** The random source: the state written out. *)
Definition random_salt (r : nat) : bytes :=
  String.list_byte_of_string ("salt" +:+ pretty r).

Definition random_nonce (r : nat) : bytes :=
  String.list_byte_of_string ("nonce" +:+ pretty r).

(** Modelled from the spec: one choice of the leaf components of section 4,
    which the spec leaves open. *)
#[export] Instance primitives : Core.Primitives := {|
  Core.key := bytes;
  Core.derive := derive;
  Core.seal := seal;
  Core.open := open;
  Core.encode := encode;
  Core.decode := decode;
  Core.write := write;
  Core.read := read;
  Core.current_version := current_version;
  Core.current_kdf := current_kdf;
  Core.random_salt := random_salt;
  Core.random_nonce := random_nonce;
|}.

(** The same components with keys of a fixed length: the first 32 bytes of
    the key above, padded with [x00]. *)
Definition key_length : nat := 32.

Definition derive_fixed (password : string) (salt : bytes)
    (kdf : Core.KdfParameters) : bytes :=
  take key_length (derive password salt kdf ++ replicate key_length x00).


End Reference.

(** ** Concrete inputs *)

Module Samples.
Import Shell.

(** The store over the reference primitives, as the shell sees it. *)
Definition store : CredentialsAPI := Core.api (P := Reference.primitives).

(** A manager created under the password [hunter2], holding two
    credentials, and the file it saves. *)
Definition stored_manager : Core.Manager (P := Reference.primitives) :=
  Core.set (Core.set (Core.create "hunter2" 0) "openai_api_key" "sk-1")
           "github_token" "ghp-2".

Definition stored_file : bytes := Core.save stored_manager 1.

(** The same, under the empty password. *)
Definition unprotected_manager : Core.Manager (P := Reference.primitives) :=
  Core.set (Core.create "" 0) "openai_api_key" "sk-1".

Definition unprotected_file : bytes := Core.save unprotected_manager 1.

(** Bytes that are no envelope. *)
Definition corrupted_file : bytes := [x05].

(** A process that starts with [f] at the path and an empty log. *)
Definition start (f : option bytes) (typed : list string) (answered : list bool)
  : World :=
  mkWorld f typed answered 2 [].





End Samples.

(** * Properties of the shell *)

Module ShellFacts.
Import Shell.
Local Open Scope shell_scope.

(** Unfold the monad and the system calls, then compute. *)
Ltac run :=
  unfold get_exisiting_cm, try_except, CredentialsManager_load,
    CredentialsManager_new, CredentialsManager_save,
    CredentialsManager_update_password, credentials_store,
    console_print, os_unlink, fresh, lift, bind, ret, raise, emit in *;
  cbn [file replies answers rng log fst snd] in *.

Section Validation.
Context `{API : CredentialsAPI}.

Lemma get_exisiting_cm_loaded w password cm :
  cm_load (file w) password = inl cm ->
  get_exisiting_cm password w = (Return (Some cm), emit (Load (file w) password) w).
Proof. intros H. run. rewrite H. reflexivity. Qed.

Lemma get_exisiting_cm_incorrect w password message :
  cm_load (file w) password = inr (IncorrectPasswordError message) ->
  get_exisiting_cm password w =
    (Return None,
     mkWorld (file w) (replies w) (answers w) (rng w)
             (log w ++ [Load (file w) password; Print message (Some "bold red")])).
Proof. intros H. run. rewrite H. cbn. rewrite <- app_assoc. reflexivity. Qed.

Lemma get_exisiting_cm_corrupted w password e content :
  cm_load (file w) password = inr e ->
  e = TypeError (str_exn e) \/ e = ValueError (str_exn e) ->
  file w = Some content ->
  get_exisiting_cm password w =
    (Return None,
     mkWorld None (replies w) (answers w) (rng w)
             (log w ++ corruption_events (Some content) password (str_exn e))).
Proof.
  intros H He Hf. run. rewrite H, Hf.
  destruct He as [-> | ->]; cbn; rewrite <- !app_assoc; reflexivity.
Qed.

Lemma get_exisiting_cm_corrupted_missing w password e :
  cm_load (file w) password = inr e ->
  e = TypeError (str_exn e) \/ e = ValueError (str_exn e) ->
  file w = None ->
  fst (get_exisiting_cm password w)
    = Raise (FileNotFoundError "No such file or directory").
Proof.
  intros H He Hf. run. rewrite H, Hf.
  destruct He as [-> | ->]; reflexivity.
Qed.

Lemma get_exisiting_cm_propagates w password e :
  cm_load (file w) password = inr e ->
  unhandled e = true ->
  get_exisiting_cm password w = (Raise e, emit (Load (file w) password) w).
Proof. intros H He. run. rewrite H. destruct e; try discriminate; reflexivity. Qed.

End Validation.

(** ** Counting prompts *)

Lemma count_asks_app what l1 l2 :
  count_asks what (l1 ++ l2) = count_asks what l1 + count_asks what l2.
Proof. unfold count_asks. rewrite List.filter_app, length_app. reflexivity. Qed.

Lemma count_asks_one what e :
  count_asks what [e] = if asks what e then 1 else 0.
Proof. unfold count_asks. cbn. destruct (asks what e); reflexivity. Qed.

Ltac count := rewrite ?count_asks_app, ?count_asks_one; cbn [asks]; try lia.

Lemma asks_at_most_weaken {A} what n n' (m : M A) :
  n <= n' -> asks_at_most what n m -> asks_at_most what n' m.
Proof. intros Hn H w. specialize (H w). lia. Qed.

Lemma asks_at_most_bind {A B} what a b (m : M A) (k : A -> M B) :
  asks_at_most what a m ->
  (forall x, asks_at_most what b (k x)) ->
  asks_at_most what (a + b) (bind m k).
Proof.
  intros Hm Hk w. unfold bind. specialize (Hm w).
  destruct (m w) as [[x | e |] w1]; cbn in *; try lia.
  specialize (Hk x w1). lia.
Qed.

Lemma asks_at_most_ret {A} what (a : A) : asks_at_most what 0 (ret a).
Proof. intros w. cbn. lia. Qed.

Lemma asks_at_most_raise {A} what e : asks_at_most what 0 (@raise A e).
Proof. intros w. cbn. lia. Qed.

Lemma asks_at_most_print what text style :
  asks_at_most what 0 (console_print text style).
Proof. intros w. cbn. count. Qed.

Lemma asks_at_most_unlink what : asks_at_most what 0 os_unlink.
Proof.
  intros w. unfold os_unlink.
  destruct (file w); cbn; count.
Qed.

Lemma asks_at_most_fresh what : asks_at_most what 0 fresh.
Proof. intros w. cbn. lia. Qed.

Lemma asks_at_most_confirm what text : asks_at_most what 0 (typer_confirm text).
Proof.
  intros w. unfold typer_confirm.
  destruct (answers w); cbn; count.
Qed.

Lemma asks_at_most_prompt what text : asks_at_most what 1 (typer_prompt text).
Proof.
  intros w. unfold typer_prompt.
  destruct (replies w); cbn; count; destruct (String.prefix what text); lia.
Qed.

Lemma asks_at_most_other_prompt what text :
  String.prefix what text = false -> asks_at_most what 0 (typer_prompt text).
Proof.
  intros H w. unfold typer_prompt.
  destruct (replies w); cbn; count; rewrite H; lia.
Qed.

Lemma asks_at_most_try {A} what a b (m : M A) h :
  asks_at_most what a m ->
  (forall e k, h e = Some k -> asks_at_most what b k) ->
  asks_at_most what (a + b) (try_except m h).
Proof.
  intros Hm Hh w. unfold try_except. specialize (Hm w).
  destruct (m w) as [[x | e |] w1]; cbn in *; try lia.
  destruct (h e) as [k |] eqn:He; cbn; [| lia].
  specialize (Hh e k He w1). lia.
Qed.

(** ** Termination of the loops *)

Lemma terminates_bind {A B} (m : M A) (k : A -> M B) :
  terminates m -> (forall x, terminates (k x)) -> terminates (bind m k).
Proof.
  intros Hm Hk w. unfold bind. specialize (Hm w).
  destruct (m w) as [[x | e |] w1]; cbn in *; [apply Hk | congruence ..].
Qed.

Lemma terminates_try {A} (m : M A) h :
  terminates m -> (forall e k, h e = Some k -> terminates k) ->
  terminates (try_except m h).
Proof.
  intros Hm Hh w. unfold try_except. specialize (Hm w).
  destruct (m w) as [[x | e |] w1]; cbn in *; [congruence | | congruence].
  destruct (h e) as [k |] eqn:He; cbn; [apply (Hh e k He) | congruence].
Qed.

Lemma terminates_ret {A} (a : A) : terminates (ret a).
Proof. intros w; cbn; congruence. Qed.

Lemma terminates_raise {A} e : terminates (@raise A e).
Proof. intros w; cbn; congruence. Qed.

Lemma terminates_print text style : terminates (console_print text style).
Proof. intros w; cbn; congruence. Qed.

Lemma terminates_unlink : terminates os_unlink.
Proof. intros w; unfold os_unlink; destruct (file w); cbn; congruence. Qed.

Lemma terminates_fresh : terminates fresh.
Proof. intros w; cbn; congruence. Qed.

Lemma terminates_prompt text : terminates (typer_prompt text).
Proof. intros w; unfold typer_prompt; destruct (replies w); cbn; congruence. Qed.

Lemma terminates_confirm text : terminates (typer_confirm text).
Proof. intros w; unfold typer_confirm; destruct (answers w); cbn; congruence. Qed.

(** ** The log only grows *)

Lemma appends_bind {A B} (m : M A) (k : A -> M B) :
  appends m -> (forall x, appends (k x)) -> appends (bind m k).
Proof.
  intros Hm Hk w. unfold bind. destruct (Hm w) as [evs Hevs].
  destruct (m w) as [[x | e |] w1]; cbn in *; eauto.
  destruct (Hk x w1) as [evs' Hevs']. exists (evs ++ evs').
  rewrite Hevs', Hevs, app_assoc. reflexivity.
Qed.

Lemma appends_try {A} (m : M A) h :
  appends m -> (forall e k, h e = Some k -> appends k) -> appends (try_except m h).
Proof.
  intros Hm Hh w. unfold try_except. destruct (Hm w) as [evs Hevs].
  destruct (m w) as [[x | e |] w1]; cbn in *; eauto.
  destruct (h e) as [k |] eqn:He; cbn; eauto.
  destruct (Hh e k He w1) as [evs' Hevs']. exists (evs ++ evs').
  rewrite Hevs', Hevs, app_assoc. reflexivity.
Qed.

Lemma appends_ret {A} (a : A) : appends (ret a).
Proof. intros w. exists []. cbn. rewrite app_nil_r. reflexivity. Qed.

Lemma appends_raise {A} e : appends (@raise A e).
Proof. intros w. exists []. cbn. rewrite app_nil_r. reflexivity. Qed.

Lemma appends_print text style : appends (console_print text style).
Proof. intros w. eexists. reflexivity. Qed.

Lemma appends_unlink : appends os_unlink.
Proof. intros w. unfold os_unlink. destruct (file w); eexists; reflexivity. Qed.

Lemma appends_fresh : appends fresh.
Proof. intros w. exists []. cbn. rewrite app_nil_r. reflexivity. Qed.

Lemma appends_prompt text : appends (typer_prompt text).
Proof. intros w. unfold typer_prompt. destruct (replies w); eexists; reflexivity. Qed.

Lemma appends_confirm text : appends (typer_confirm text).
Proof. intros w. unfold typer_confirm. destruct (answers w); eexists; reflexivity. Qed.

Create HintDb shell.
#[local] Hint Resolve appends_ret appends_raise appends_print appends_unlink
  appends_fresh appends_prompt appends_confirm : shell.
#[local] Hint Resolve asks_at_most_ret asks_at_most_raise asks_at_most_print
  asks_at_most_unlink asks_at_most_fresh asks_at_most_confirm
  terminates_ret terminates_raise terminates_print terminates_unlink
  terminates_fresh terminates_prompt terminates_confirm : shell.

(** Decompose a command into its calls. *)
Ltac frame :=
  repeat first
    [ solve [auto with shell]
    | apply appends_bind; [| intros ?]
    | apply terminates_bind; [| intros ?]
    | apply (asks_at_most_bind _ 0 0); [| intros ?]
    | match goal with
      | |- context [match ?x with _ => _ end] => destruct x
      | |- context [if ?b then _ else _] => destruct b
      end ].

Lemma prefix_append (s t : string) : String.prefix s (s +:+ t) = true.
Proof.
  induction s as [| c s IH]; simpl.
  - destruct t; reflexivity.
  - destruct (Ascii.ascii_dec c c); [exact IH | congruence].
Qed.

Lemma prefix_attempt_prompt what i :
  String.prefix what (attempt_prompt what i) = true.
Proof.
  unfold attempt_prompt. destruct (Nat.eqb i 0).
  - induction what as [| c s IH]; simpl; [reflexivity |].
    destruct (Ascii.ascii_dec c c); [exact IH | congruence].
  - apply prefix_append.
Qed.

Section Frames.
Context `{API : CredentialsAPI}.
Variable G : Globals.

Lemma appends_load password : appends (CredentialsManager_load password).
Proof.
  intros w. unfold CredentialsManager_load, lift, ret, raise.
  destruct (cm_load (file w) password); eexists; reflexivity.
Qed.

Lemma asks_at_most_load what password :
  asks_at_most what 0 (CredentialsManager_load password).
Proof.
  intros w. unfold CredentialsManager_load, lift, ret, raise, emit.
  destruct (cm_load (file w) password); cbn; count.
Qed.

Lemma terminates_load password : terminates (CredentialsManager_load password).
Proof.
  intros w. unfold CredentialsManager_load, lift, ret, raise.
  destruct (cm_load (file w) password); cbn; congruence.
Qed.

Hint Resolve appends_load asks_at_most_load terminates_load : shell.

Lemma appends_get_exisiting_cm password : appends (get_exisiting_cm password).
Proof.
  unfold get_exisiting_cm. apply appends_try; [frame |].
  intros e k Hk. destruct e; inversion Hk; subst; frame.
Qed.

Lemma asks_at_most_get_exisiting_cm what password :
  asks_at_most what 0 (get_exisiting_cm password).
Proof.
  unfold get_exisiting_cm. apply (asks_at_most_try what 0 0); [frame |].
  intros e k Hk. destruct e; inversion Hk; subst; frame.
Qed.

Lemma terminates_get_exisiting_cm password :
  terminates (get_exisiting_cm password).
Proof.
  unfold get_exisiting_cm. apply terminates_try; [frame |].
  intros e k Hk. destruct e; inversion Hk; subst; frame.
Qed.

Lemma appends_new password : appends (CredentialsManager_new password).
Proof.
  unfold CredentialsManager_new. frame. intros w. eexists; reflexivity.
Qed.

Lemma asks_at_most_new what password :
  asks_at_most what 0 (CredentialsManager_new password).
Proof.
  unfold CredentialsManager_new. frame. intros w. cbn. count.
Qed.

Lemma terminates_new password : terminates (CredentialsManager_new password).
Proof.
  unfold CredentialsManager_new. frame. intros w. cbn. congruence.
Qed.

Lemma appends_update cm old new :
  appends (CredentialsManager_update_password cm old new).
Proof.
  unfold CredentialsManager_update_password. frame. intros w.
  unfold lift, ret, raise. destruct cm_update_password; eexists; reflexivity.
Qed.

Lemma asks_at_most_update what cm old new :
  asks_at_most what 0 (CredentialsManager_update_password cm old new).
Proof.
  unfold CredentialsManager_update_password. frame. intros w.
  unfold lift, ret, raise, emit. destruct cm_update_password; cbn; count.
Qed.

Lemma terminates_update cm old new :
  terminates (CredentialsManager_update_password cm old new).
Proof.
  unfold CredentialsManager_update_password. frame. intros w.
  unfold lift, ret, raise. destruct cm_update_password; cbn; congruence.
Qed.

Lemma appends_save cm : appends (CredentialsManager_save cm).
Proof.
  unfold CredentialsManager_save. frame. intros w. eexists; reflexivity.
Qed.

Lemma asks_at_most_save what cm : asks_at_most what 0 (CredentialsManager_save cm).
Proof.
  unfold CredentialsManager_save. frame. intros w. cbn. count.
Qed.

Lemma terminates_save cm : terminates (CredentialsManager_save cm).
Proof.
  unfold CredentialsManager_save. frame. intros w. cbn. congruence.
Qed.

Hint Resolve appends_get_exisiting_cm asks_at_most_get_exisiting_cm
  terminates_get_exisiting_cm appends_new asks_at_most_new terminates_new
  appends_update asks_at_most_update terminates_update
  appends_save asks_at_most_save terminates_save : shell.

(** *** The [while True] loop *)

Lemma appends_new_password_loop fuel : appends (new_password_loop fuel).
Proof.
  induction fuel as [| fuel IH]; cbn [new_password_loop].
  - intros w. exists []. cbn. rewrite app_nil_r. reflexivity.
  - frame.
Qed.

Lemma asks_at_most_new_password_loop fuel :
  asks_at_most "Enter current password" 0 (new_password_loop fuel)
  /\ asks_at_most "Enter your password" 0 (new_password_loop fuel).
Proof.
  induction fuel as [| fuel [IH1 IH2]]; cbn [new_password_loop].
  - split; intros w; cbn; lia.
  - split;
      (apply (asks_at_most_bind _ 0 0);
       [apply asks_at_most_other_prompt; reflexivity | intros ?]);
      (apply (asks_at_most_bind _ 0 0);
       [apply asks_at_most_other_prompt; reflexivity | intros ?]);
      frame.
Qed.

(** Each round reads two replies, so fuel beyond the number of pending
    replies is never used up. *)
Lemma new_password_loop_fuel fuel w :
  length (replies w) < fuel -> fst (new_password_loop fuel w) <> OutOfFuel.
Proof.
  revert w. induction fuel as [| fuel IH]; intros w Hlt; [lia |].
  cbn [new_password_loop]. unfold bind, typer_prompt at 1.
  destruct (replies w) as [| r1 rs] eqn:Hr; cbn; [congruence |].
  unfold typer_prompt. cbn.
  destruct rs as [| r2 rs]; cbn; [congruence |].
  destruct (String.eqb r1 r2); cbn; [congruence |].
  apply IH. cbn in *. lia.
Qed.

Lemma terminates_new_password :
  terminates (fun w => new_password_loop (S (length (replies w))) w).
Proof. intros w. apply new_password_loop_fuel. lia. Qed.

Lemma appends_update_password_finish curr cm :
  appends (update_password_finish curr cm).
Proof.
  unfold update_password_finish.
  apply appends_bind; [intros w; apply appends_new_password_loop | intros ?].
  frame.
Qed.

Lemma asks_at_most_update_password_finish curr cm :
  asks_at_most "Enter current password" 0 (update_password_finish curr cm).
Proof.
  unfold update_password_finish.
  apply (asks_at_most_bind _ 0 0);
    [intros w; apply asks_at_most_new_password_loop | intros ?].
  frame.
Qed.

Lemma terminates_update_password_finish curr cm :
  terminates (update_password_finish curr cm).
Proof.
  unfold update_password_finish.
  apply terminates_bind; [apply terminates_new_password | intros ?].
  frame.
Qed.

(** *** The [for i in range(3)] loops *)


Lemma terminates_update_password_attempts ixs :
  terminates (update_password_attempts ixs).
Proof. induction ixs; cbn [update_password_attempts]; frame. Qed.

Lemma asks_at_most_update_password_attempts what ixs :
  asks_at_most what (length ixs) (update_password_attempts ixs).
Proof.
  induction ixs as [| i ixs IH]; cbn [update_password_attempts length].
  - frame.
  - apply (asks_at_most_bind _ 1 (length ixs)); [apply asks_at_most_prompt |].
    intros p. apply (asks_at_most_bind _ 0 (length ixs)); [frame |].
    intros [cm |]; [| exact IH].
    eapply asks_at_most_weaken; [| apply asks_at_most_ret]. lia.
Qed.

Lemma appends_delete_credentials_attempts ixs :
  appends (delete_credentials_attempts ixs).
Proof. induction ixs; cbn [delete_credentials_attempts]; frame. Qed.

Lemma terminates_delete_credentials_attempts ixs :
  terminates (delete_credentials_attempts ixs).
Proof. induction ixs; cbn [delete_credentials_attempts]; frame. Qed.

Lemma asks_at_most_delete_credentials_attempts what ixs :
  asks_at_most what (length ixs) (delete_credentials_attempts ixs).
Proof.
  induction ixs as [| i ixs IH]; cbn [delete_credentials_attempts length].
  - frame.
  - apply (asks_at_most_bind _ 1 (length ixs)); [apply asks_at_most_prompt |].
    intros p. apply (asks_at_most_bind _ 0 (length ixs)); [frame |].
    intros [cm |]; [| exact IH].
    eapply asks_at_most_weaken; [| frame]. lia.
Qed.

(** Attempts that fail to validate are skipped over by the loops. *)
Lemma update_password_attempts_failed done rest w w1 :
  failed_attempts "Enter current password" done w = Some w1 ->
  update_password_attempts (done ++ rest) w = update_password_attempts rest w1.
Proof.
  revert w. induction done as [| i done IH]; intros w H;
    cbn [failed_attempts] in H.
  - injection H as ->. reflexivity.
  - cbn [app update_password_attempts]. unfold bind at 1.
    destruct (typer_prompt _ w) as [[p | |] w2]; try discriminate.
    unfold bind at 1.
    destruct (get_exisiting_cm p w2) as [[[cm |] | |] w3]; try discriminate.
    apply IH, H.
Qed.

Lemma delete_credentials_attempts_failed done rest w w1 :
  failed_attempts "Enter your password" done w = Some w1 ->
  delete_credentials_attempts (done ++ rest) w
    = delete_credentials_attempts rest w1.
Proof.
  revert w. induction done as [| i done IH]; intros w H;
    cbn [failed_attempts] in H.
  - injection H as ->. reflexivity.
  - cbn [app delete_credentials_attempts]. unfold bind at 1.
    destruct (typer_prompt _ w) as [[p | |] w2]; try discriminate.
    unfold bind at 1.
    destruct (get_exisiting_cm p w2) as [[[cm |] | |] w3]; try discriminate.
    apply IH, H.
Qed.

(** *** The commands *)

Lemma terminates_credentials k t p : terminates (credentials G k t p).
Proof. unfold credentials, credentials_store. frame. Qed.

Lemma terminates_update_password : terminates (update_password G).
Proof.
  unfold update_password.
  destruct (CREDENTIALS_EXIST G).
  - apply terminates_bind; [apply terminates_update_password_attempts |].
    intros ?. apply terminates_update_password_finish.
  - apply terminates_bind; [frame | intros _].
    apply terminates_bind; [frame | intros create].
    destruct create; cbn [negb]; [apply terminates_update_password_finish | frame].
Qed.

Lemma terminates_delete_credentials : terminates (delete_credentials G).
Proof.
  unfold delete_credentials.
  destruct (CREDENTIALS_EXIST G); cbn [negb]; [| frame].
  apply terminates_bind; [frame | intros d].
  destruct d; cbn [negb]; [apply terminates_delete_credentials_attempts | frame].
Qed.

End Frames.

#[local] Hint Resolve appends_load asks_at_most_load terminates_load
  appends_get_exisiting_cm asks_at_most_get_exisiting_cm
  terminates_get_exisiting_cm appends_new asks_at_most_new terminates_new
  appends_update asks_at_most_update terminates_update
  appends_save asks_at_most_save terminates_save : shell.

(** ** Exact counts *)

Lemma count_exact {A} what (m : M A) w :
  appends m -> asks_at_most what 0 m ->
  count_asks what (log (snd (m w))) = count_asks what (log w).
Proof.
  intros Ha Hm. specialize (Hm w). destruct (Ha w) as [evs Hevs].
  rewrite Hevs, count_asks_app in *. lia.
Qed.

Lemma bind_extends {A B} (m : M A) (k : A -> M B) w :
  (forall x, appends (k x)) ->
  exists evs, log (snd (bind m k w)) = log (snd (m w)) ++ evs.
Proof.
  intros Hk. unfold bind.
  destruct (m w) as [[x | e |] w1]; cbn;
    [apply Hk | exists []; apply eq_sym, app_nil_r ..].
Qed.

Lemma typer_prompt_count what text w p w1 :
  typer_prompt text w = (Return p, w1) ->
  count_asks what (log w1)
    = count_asks what (log w) + (if String.prefix what text then 1 else 0).
Proof.
  unfold typer_prompt. destruct (replies w); intros H; inversion H; subst.
  cbn. count.
Qed.

Section Attempts.
Context `{API : CredentialsAPI}.

Lemma get_exisiting_cm_count what password w :
  count_asks what (log (snd (get_exisiting_cm password w)))
    = count_asks what (log w).
Proof.
  apply count_exact;
    [apply appends_get_exisiting_cm | apply asks_at_most_get_exisiting_cm].
Qed.

Lemma failed_attempts_count what done w w1 :
  failed_attempts what done w = Some w1 ->
  count_asks what (log w1) = count_asks what (log w) + length done.
Proof.
  revert w. induction done as [| i done IH]; intros w H;
    cbn [failed_attempts] in H.
  - injection H as ->. cbn. lia.
  - destruct (typer_prompt _ w) as [[p | |] w2] eqn:Hp; try discriminate.
    pose proof (get_exisiting_cm_count what p w2) as Hc.
    destruct (get_exisiting_cm p w2) as [[[cm |] | |] w3]; try discriminate.
    rewrite (IH _ H). cbn [snd] in Hc. rewrite Hc.
    rewrite (typer_prompt_count what _ _ _ _ Hp), prefix_attempt_prompt.
    cbn [length]. lia.
Qed.

(** The first thing [get_exisiting_cm] does is call [load] on what the path
    holds. *)
Lemma get_exisiting_cm_first password w :
  exists evs,
    log (snd (get_exisiting_cm password w))
      = log w ++ Load (file w) password :: evs.
Proof.
  unfold get_exisiting_cm, try_except.
  assert (Hload : exists r,
             (cm <- CredentialsManager_load password ;; ret (Some cm))%shell w
             = (r, emit (Load (file w) password) w)).
  { unfold bind, CredentialsManager_load, lift, ret, raise.
    destruct (cm_load (file w) password); eauto. }
  destruct Hload as [r ->]. unfold emit at 1 2.
  assert (Hk : forall k : M (option Manager), appends k ->
            exists evs,
              log (snd (k (emit (Load (file w) password) w)))
                = log w ++ Load (file w) password :: evs).
  { intros k Hk. destruct (Hk (emit (Load (file w) password) w)) as [evs Hevs].
    exists evs. rewrite Hevs. cbn. rewrite <- app_assoc. reflexivity. }
  destruct r as [x | e |]; try (exists []; reflexivity).
  destruct e; try (exists []; reflexivity); apply Hk; frame.
Qed.

End Attempts.

(** ** Stepping through a command *)

Lemma bind_return {A B} (m : M A) (k : A -> M B) w a w1 :
  m w = (Return a, w1) -> bind m k w = k a w1.
Proof. intros H. unfold bind. rewrite H. reflexivity. Qed.

Lemma typer_prompt_reply text w r rs :
  replies w = r :: rs ->
  typer_prompt text w
    = (Return r,
       mkWorld (file w) rs (answers w) (rng w) (log w ++ [Prompt text])).
Proof. intros H. unfold typer_prompt. rewrite H. reflexivity. Qed.

Lemma typer_confirm_answer text w a rest :
  answers w = a :: rest ->
  typer_confirm text w
    = (Return a,
       mkWorld (file w) (replies w) rest (rng w) (log w ++ [Confirm text])).
Proof. intros H. unfold typer_confirm. rewrite H. reflexivity. Qed.

Lemma range_3 : range 3 = [0; 1; 2].
Proof. reflexivity. Qed.

Section Steps.
Context `{API : CredentialsAPI}.

Lemma update_password_attempts_cons i rest :
  update_password_attempts (i :: rest)
    = (curr_password <- typer_prompt (attempt_prompt "Enter current password" i) ;;
       cm <- get_exisiting_cm curr_password ;;
       match cm with
       | Some cm => ret (curr_password, cm)
       | None => update_password_attempts rest
       end)%shell.
Proof. reflexivity. Qed.

Lemma delete_credentials_attempts_cons i rest :
  delete_credentials_attempts (i :: rest)
    = (pswd <- typer_prompt (attempt_prompt "Enter your password" i) ;;
       cm <- get_exisiting_cm pswd ;;
       match cm with
       | Some _ =>
           os_unlink ;;
           console_print "Credentials deleted successfully" (Some "bold green")
       | None => delete_credentials_attempts rest
       end)%shell.
Proof. reflexivity. Qed.

Lemma new_password_loop_agree fuel w new_password rest :
  replies w = new_password :: new_password :: rest ->
  new_password_loop (S fuel) w
    = (Return new_password,
       mkWorld (file w) rest (answers w) (rng w)
               (log w ++ [Prompt "Enter new password";
                          Prompt "Re-enter new password"])).
Proof.
  intros H. cbn [new_password_loop].
  erewrite bind_return; [| apply typer_prompt_reply; exact H].
  erewrite bind_return; [| apply typer_prompt_reply; reflexivity].
  rewrite String.eqb_refl. unfold ret. cbn. rewrite <- app_assoc. reflexivity.
Qed.

Lemma CredentialsManager_new_run password w :
  CredentialsManager_new password w
    = (Return (cm_new password (rng w)),
       mkWorld (file w) (replies w) (answers w) (S (rng w))
               (log w ++ [New password])).
Proof. reflexivity. Qed.

Lemma CredentialsManager_save_run cm w :
  CredentialsManager_save cm w
    = (Return tt,
       mkWorld (Some (cm_save cm (rng w))) (replies w) (answers w) (S (rng w))
               (log w ++ [Save (cm_save cm (rng w))])).
Proof. reflexivity. Qed.

Lemma CredentialsManager_update_password_run cm old new cm' w :
  cm_update_password cm old new (rng w) = inl cm' ->
  CredentialsManager_update_password cm old new w
    = (Return cm',
       mkWorld (file w) (replies w) (answers w) (S (rng w))
               (log w ++ [UpdatePassword old new])).
Proof.
  intros H. unfold CredentialsManager_update_password, bind, fresh, lift.
  cbn [rng]. rewrite H. reflexivity.
Qed.

End Steps.

Lemma bind_first {A B} (m : M A) (k : A -> M B) w pre :
  (forall x, appends (k x)) ->
  (exists evs, log (snd (m w)) = pre ++ evs) ->
  exists evs, log (snd (bind m k w)) = pre ++ evs.
Proof.
  intros Hk [evs Hevs]. destruct (bind_extends m k w Hk) as [evs' Hevs'].
  exists (evs ++ evs'). rewrite Hevs', Hevs, app_assoc. reflexivity.
Qed.

(** State the goal [exists evs, l = ...] with the prefix [pre]. *)
Ltac starts_with pre :=
  match goal with
  | |- exists evs, ?l = _ =>
      enough (exists evs, l = pre ++ evs) as [? ->];
      [eexists; rewrite <- ?app_assoc; reflexivity |]
  end.

(** ** What [get_exisiting_cm] does with the outcome of [load] *)

(** C10: [get_exisiting_cm] returns the manager when [load] succeeds; it
    handles [TypeError] and [ValueError] (corruption: the file is unlinked)
    and [IncorrectPasswordError] (the message is printed) and returns [None]
    in those cases; every other exception of [load] propagates unchanged,
    also out of the [credentials] command that called it; and [None] is
    returned only after one of the three handled exceptions. *)
Theorem get_exisiting_cm_handlers `{API : CredentialsAPI} (w : World)
    (password : string) :
  let r := get_exisiting_cm password w in
  (forall cm, cm_load (file w) password = inl cm ->
     r = (Return (Some cm), emit (Load (file w) password) w))
  /\ (forall msg, cm_load (file w) password = inr (TypeError msg)
                  \/ cm_load (file w) password = inr (ValueError msg) ->
        is_Some (file w) ->
        r = (Return None,
             mkWorld None (replies w) (answers w) (rng w)
                     (log w ++ corruption_events (file w) password msg)))
  /\ (forall message,
        cm_load (file w) password = inr (IncorrectPasswordError message) ->
        r = (Return None,
             mkWorld (file w) (replies w) (answers w) (rng w)
                     (log w ++ [Load (file w) password;
                                Print message (Some "bold red")])))
  /\ (forall e, cm_load (file w) password = inr e -> unhandled e = true ->
        r = (Raise e, emit (Load (file w) password) w)
        /\ forall G openai_api_key github_token,
             CREDENTIALS_EXIST G = true ->
             credentials G openai_api_key github_token password w
               = (Raise e, emit (Load (file w) password) w))
  /\ (fst r = Return None ->
        exists e, cm_load (file w) password = inr e /\ unhandled e = false).
Proof.
  cbv zeta. repeat split.
  - apply get_exisiting_cm_loaded.
  - intros msg Hload [content Hfile]. rewrite Hfile.
    destruct Hload as [Hload | Hload];
      apply (get_exisiting_cm_corrupted w password _ content Hload);
      cbn; auto.
  - apply get_exisiting_cm_incorrect.
  - apply get_exisiting_cm_propagates; assumption.
  - intros G k t HG. unfold credentials, bind. rewrite HG.
    rewrite (get_exisiting_cm_propagates w password e) by assumption.
    reflexivity.
  - destruct (cm_load (file w) password) as [cm | e] eqn:Hload.
    + rewrite (get_exisiting_cm_loaded w password cm Hload). discriminate.
    + destruct (unhandled e) eqn:He; [| eauto].
      rewrite (get_exisiting_cm_propagates w password e Hload He). discriminate.
Qed.

Lemma get_exisiting_cm_handlers_witness :
  get_exisiting_cm (API := Samples.store) "hunter2"
      (Samples.start (Some Samples.corrupted_file) [] [])
  = (Return None,
     mkWorld None [] [] 2
       (corruption_events (Some Samples.corrupted_file) "hunter2"
                          "malformed credentials file")).
Proof.
  destruct (get_exisiting_cm_handlers (API := Samples.store)
              (Samples.start (Some Samples.corrupted_file) [] []) "hunter2")
    as (_ & H & _).
  apply (H "malformed credentials file").
  - right. vm_compute. reflexivity.
  - eexists. reflexivity.
Defined.

(** C3: when [load] raises [IncorrectPasswordError], [get_exisiting_cm]
    prints the message and returns [None] with the file, the pending input
    and the random source as they were (nothing is unlinked or saved), and
    the [credentials] command, which calls it when the file existed at
    import, returns at once in that same world. *)
Theorem incorrect_password_leaves_file `{API : CredentialsAPI} (G : Globals)
    (w : World) (openai_api_key github_token password message : string) :
  cm_load (file w) password = inr (IncorrectPasswordError message) ->
  let w' := mkWorld (file w) (replies w) (answers w) (rng w)
              (log w ++ [Load (file w) password; Print message (Some "bold red")]) in
  get_exisiting_cm password w = (Return None, w')
  /\ file w' = file w
  /\ (CREDENTIALS_EXIST G = true ->
      credentials G openai_api_key github_token password w = (Return tt, w')).
Proof.
  intros Hload w'. pose proof (get_exisiting_cm_incorrect w password message Hload) as H.
  repeat split; [exact H |].
  intros HG. unfold credentials. rewrite HG. unfold bind. rewrite H. reflexivity.
Qed.

Lemma incorrect_password_leaves_file_witness :
  let w := Samples.start (Some Samples.stored_file) [] [] in
  let w' := mkWorld (Some Samples.stored_file) [] [] 2
              [Load (Some Samples.stored_file) "letmein";
               Print "Incorrect password" (Some "bold red")] in
  get_exisiting_cm (API := Samples.store) "letmein" w = (Return None, w')
  /\ file w' = file w
  /\ (CREDENTIALS_EXIST (import_module w) = true ->
      credentials (API := Samples.store) (import_module w) "sk-9" "ghp-9" "letmein" w
      = (Return tt, w')).
Proof.
  apply (incorrect_password_leaves_file (API := Samples.store)
           (import_module (Samples.start (Some Samples.stored_file) [] []))
           (Samples.start (Some Samples.stored_file) [] [])
           "sk-9" "ghp-9" "letmein" "Incorrect password").
  vm_compute. reflexivity.
Defined.

(** ** Deleting a corrupted file *)

(** C1, as amended: when [load] fails with [TypeError] or [ValueError] and
    the file exists, [get_exisiting_cm] itself unlinks the file at once: it
    prints the corruption notice, unlinks, prints the guidance and returns
    [None]; no confirmation is asked in between and no pending answer of the
    user is consumed. *)
Theorem corruption_unlinks_without_asking `{API : CredentialsAPI} (w : World)
    (password msg : string) (content : bytes) :
  file w = Some content ->
  cm_load (file w) password = inr (TypeError msg)
  \/ cm_load (file w) password = inr (ValueError msg) ->
  get_exisiting_cm password w =
    (Return None,
     mkWorld None (replies w) (answers w) (rng w)
             (log w ++ corruption_events (Some content) password msg))
  /\ unlinks_confirmed false (corruption_events (Some content) password msg) = false
  /\ (forall text, Confirm text ∉ corruption_events (Some content) password msg).
Proof.
  intros Hfile Hload. repeat split.
  - destruct Hload as [Hload | Hload];
      apply (get_exisiting_cm_corrupted w password _ content Hload);
      cbn; auto.
  - intros text Hin. unfold corruption_events in Hin.
    repeat (apply elem_of_cons in Hin as [Hin | Hin]; [discriminate |]).
    inversion Hin.
Qed.

Lemma corruption_unlinks_without_asking_witness :
  let w := Samples.start (Some Samples.corrupted_file) [] [true] in
  let evs := corruption_events (Some Samples.corrupted_file) "hunter2"
                               "malformed credentials file" in
  get_exisiting_cm (API := Samples.store) "hunter2" w
    = (Return None, mkWorld None [] [true] 2 ([] ++ evs))
  /\ unlinks_confirmed false evs = false
  /\ (forall text, Confirm text ∉ evs).
Proof.
  apply (corruption_unlinks_without_asking (API := Samples.store)
           (Samples.start (Some Samples.corrupted_file) [] [true])
           "hunter2" "malformed credentials file" Samples.corrupted_file).
  - reflexivity.
  - right. vm_compute. reflexivity.
Defined.

(** C1, as stated, fails: in the [credentials] command run on a corrupted
    file, [load] raises [ValueError] and the file is unlinked although the
    log holds no confirmation before the [Unlink] (none at all). *)
Lemma corruption_unlink_not_confirmed :
  let w := Samples.start (Some Samples.corrupted_file) [] [] in
  let w' := snd (credentials (API := Samples.store) (import_module w)
                             "sk-9" "ghp-9" "hunter2" w) in
  cm_load (CredentialsAPI := Samples.store) (file w) "hunter2"
    = inr (ValueError "malformed credentials file")
  /\ Unlink ∈ log w'
  /\ file w' = None
  /\ unlinks_confirmed false (log w') = false.
Proof.
  vm_compute. repeat split. repeat constructor.
Qed.

(** ** The retry loops *)

(** C7: [update_password] and [delete_credentials] ask for the current
    password at most three times in a run.  When the attempts before attempt
    [i] fail to validate and attempt [i] validates, the loop is left right
    there: the command goes on in the world that validation left, having
    asked exactly once per attempt made.  When all three attempts fail to
    validate, the command prints "Too many incorrect attempts." and raises
    [typer.Abort]. *)
Theorem password_attempts_limited `{API : CredentialsAPI} (G : Globals) :
  (forall w,
     count_asks "Enter current password" (log (snd (update_password G w)))
       <= count_asks "Enter current password" (log w) + 3)
  /\ (forall w done i rest w1 p w2 cm w3,
        CREDENTIALS_EXIST G = true ->
        range 3 = done ++ i :: rest ->
        failed_attempts "Enter current password" done w = Some w1 ->
        typer_prompt (attempt_prompt "Enter current password" i) w1 = (Return p, w2) ->
        get_exisiting_cm p w2 = (Return (Some cm), w3) ->
        update_password G w = update_password_finish p (Some cm) w3
        /\ count_asks "Enter current password" (log (snd (update_password G w)))
           = count_asks "Enter current password" (log w) + length done + 1)
  /\ (forall w w3,
        CREDENTIALS_EXIST G = true ->
        failed_attempts "Enter current password" (range 3) w = Some w3 ->
        update_password G w
          = (Raise Abort,
             emit (Print "Too many incorrect attempts." (Some "bold red")) w3))
  /\ (forall w,
        count_asks "Enter your password" (log (snd (delete_credentials G w)))
          <= count_asks "Enter your password" (log w) + 3)
  /\ (forall w w0 done i rest w1 p w2 cm w3,
        CREDENTIALS_EXIST G = true ->
        typer_confirm "Are you sure you want to delete your credentials?" w
          = (Return true, w0) ->
        range 3 = done ++ i :: rest ->
        failed_attempts "Enter your password" done w0 = Some w1 ->
        typer_prompt (attempt_prompt "Enter your password" i) w1 = (Return p, w2) ->
        get_exisiting_cm p w2 = (Return (Some cm), w3) ->
        delete_credentials G w
          = (os_unlink ;;
             console_print "Credentials deleted successfully" (Some "bold green"))%shell w3
        /\ count_asks "Enter your password" (log (snd (delete_credentials G w)))
           = count_asks "Enter your password" (log w) + length done + 1)
  /\ (forall w w0 w3,
        CREDENTIALS_EXIST G = true ->
        typer_confirm "Are you sure you want to delete your credentials?" w
          = (Return true, w0) ->
        failed_attempts "Enter your password" (range 3) w0 = Some w3 ->
        delete_credentials G w
          = (Raise Abort,
             emit (Print "Too many incorrect attempts." (Some "bold red")) w3)).
Proof.
  repeat apply conj.
  - (* update_password: at most three *)
    unfold update_password. destruct (CREDENTIALS_EXIST G).
    + apply (asks_at_most_bind _ 3 0).
      * apply (asks_at_most_update_password_attempts _ (range 3)).
      * intros ?. apply asks_at_most_update_password_finish.
    + eapply (asks_at_most_weaken _ 0); [lia |].
      apply (asks_at_most_bind _ 0 0); [frame | intros _].
      apply (asks_at_most_bind _ 0 0); [frame | intros create].
      destruct create; cbn [negb];
        [apply asks_at_most_update_password_finish | frame].
  - (* update_password: stop at the first validation *)
    intros w done i rest w1 p w2 cm w3 HG Hrange Hfail Hp Hcm.
    assert (Heq : update_password G w = update_password_finish p (Some cm) w3).
    { unfold update_password. rewrite HG, Hrange. unfold bind at 1.
      rewrite (update_password_attempts_failed done (i :: rest) w w1 Hfail).
      cbn [update_password_attempts]. unfold bind at 1. rewrite Hp.
      unfold bind at 1. rewrite Hcm. reflexivity. }
    split; [exact Heq |]. rewrite Heq.
    rewrite (count_exact _ (update_password_finish p (Some cm)) w3
               (appends_update_password_finish p (Some cm))
               (asks_at_most_update_password_finish p (Some cm))).
    pose proof (get_exisiting_cm_count "Enter current password" p w2) as Hc.
    rewrite Hcm in Hc. cbn [snd] in Hc. rewrite Hc.
    rewrite (typer_prompt_count _ _ _ _ _ Hp), prefix_attempt_prompt.
    rewrite (failed_attempts_count _ _ _ _ Hfail). lia.
  - (* update_password: three failures *)
    intros w w3 HG Hfail. unfold update_password. rewrite HG.
    unfold bind at 1. rewrite <- (app_nil_r (range 3)).
    rewrite (update_password_attempts_failed (range 3) [] w w3 Hfail).
    reflexivity.
  - (* delete_credentials: at most three *)
    unfold delete_credentials. destruct (CREDENTIALS_EXIST G); cbn [negb].
    + apply (asks_at_most_bind _ 0 3); [frame | intros d].
      destruct d; cbn [negb].
      * apply (asks_at_most_delete_credentials_attempts _ (range 3)).
      * eapply (asks_at_most_weaken _ 0); [lia | frame].
    + eapply (asks_at_most_weaken _ 0); [lia | frame].
  - (* delete_credentials: stop at the first validation *)
    intros w w0 done i rest w1 p w2 cm w3 HG Hconfirm Hrange Hfail Hp Hcm.
    assert (Heq : delete_credentials G w
                  = (os_unlink ;;
                     console_print "Credentials deleted successfully"
                                   (Some "bold green"))%shell w3).
    { unfold delete_credentials. rewrite HG. cbn [negb]. unfold bind at 1.
      rewrite Hconfirm. cbn [negb]. rewrite Hrange.
      rewrite (delete_credentials_attempts_failed done (i :: rest) w0 w1 Hfail).
      cbn [delete_credentials_attempts]. unfold bind at 1. rewrite Hp.
      unfold bind at 1. rewrite Hcm. reflexivity. }
    split; [exact Heq |]. rewrite Heq.
    rewrite (count_exact "Enter your password"
               (os_unlink ;;
                console_print "Credentials deleted successfully"
                              (Some "bold green"))%shell w3);
      [| frame | frame].
    pose proof (get_exisiting_cm_count "Enter your password" p w2) as Hc.
    rewrite Hcm in Hc. cbn [snd] in Hc. rewrite Hc.
    rewrite (typer_prompt_count _ _ _ _ _ Hp), prefix_attempt_prompt.
    rewrite (failed_attempts_count _ _ _ _ Hfail).
    pose proof (count_exact "Enter your password"
                  (typer_confirm "Are you sure you want to delete your credentials?")
                  w (appends_confirm _) (asks_at_most_confirm _ _)) as Hw0.
    rewrite Hconfirm in Hw0. cbn [snd] in Hw0. lia.
  - (* delete_credentials: three failures *)
    intros w w0 w3 HG Hconfirm Hfail. unfold delete_credentials. rewrite HG.
    cbn [negb]. unfold bind at 1. rewrite Hconfirm. cbn [negb].
    rewrite <- (app_nil_r (range 3)).
    rewrite (delete_credentials_attempts_failed (range 3) [] w0 w3 Hfail).
    reflexivity.
Qed.

Lemma password_attempts_limited_witness :
  let G := import_module (Samples.start (Some Samples.stored_file) [] []) in
  let w := Samples.start (Some Samples.stored_file)
                         ["letmein"; "password"; "123456"; "hunter2"] [] in
  fst (update_password (API := Samples.store) G w) = Raise Abort
  /\ last (log (snd (update_password (API := Samples.store) G w)))
     = Some (Print "Too many incorrect attempts." (Some "bold red"))
  /\ replies (snd (update_password (API := Samples.store) G w)) = ["hunter2"].
Proof.
  intros G w.
  destruct (password_attempts_limited (API := Samples.store) G)
    as (_ & _ & H & _).
  rewrite (H w (mkWorld (Some Samples.stored_file) ["hunter2"] [] 2
                  [Prompt "Enter current password";
                   Load (Some Samples.stored_file) "letmein";
                   Print "Incorrect password" (Some "bold red");
                   Prompt "Enter current password (Attempt 2 / 3)";
                   Load (Some Samples.stored_file) "password";
                   Print "Incorrect password" (Some "bold red");
                   Prompt "Enter current password (Attempt 3 / 3)";
                   Load (Some Samples.stored_file) "123456";
                   Print "Incorrect password" (Some "bold red")])).
  - repeat split.
  - reflexivity.
  - vm_compute. reflexivity.
Defined.

(** ** The empty current password *)

Lemma no_new_bind {A B} (m : M A) (k : A -> M B) :
  no_new m -> (forall x, no_new (k x)) -> no_new (bind m k).
Proof.
  intros Hm Hk w. unfold bind. destruct (Hm w) as (evs & Hevs & Hok).
  destruct (m w) as [[x | e |] w1]; cbn in *; eauto.
  destruct (Hk x w1) as (evs' & Hevs' & Hok'). exists (evs ++ evs').
  rewrite Hevs', Hevs, app_assoc. split; [reflexivity |].
  apply Forall_app; auto.
Qed.

Lemma no_new_silent {A} (m : M A) :
  (forall w, log (snd (m w)) = log w) -> no_new m.
Proof.
  intros H w. exists []. rewrite H, app_nil_r. split; [reflexivity | constructor].
Qed.

Lemma no_new_event {A} (m : M A) e :
  is_new e = false -> (forall w, log (snd (m w)) = log w ++ [e]) -> no_new m.
Proof.
  intros He H w. exists [e]. rewrite H. split; [reflexivity |].
  repeat constructor. exact He.
Qed.

Lemma no_new_ret {A} (a : A) : no_new (ret a).
Proof. apply no_new_silent. reflexivity. Qed.

Lemma no_new_raise {A} e : no_new (@raise A e).
Proof. apply no_new_silent. reflexivity. Qed.

Lemma no_new_fresh : no_new fresh.
Proof. apply no_new_silent. reflexivity. Qed.

Lemma no_new_print text style : no_new (console_print text style).
Proof. apply (no_new_event _ (Print text style)); reflexivity. Qed.

Lemma no_new_unlink : no_new os_unlink.
Proof.
  apply (no_new_event _ Unlink); [reflexivity |].
  intros w. unfold os_unlink. destruct (file w); reflexivity.
Qed.

Lemma no_new_prompt text : no_new (typer_prompt text).
Proof.
  apply (no_new_event _ (Prompt text)); [reflexivity |].
  intros w. unfold typer_prompt. destruct (replies w); reflexivity.
Qed.

Section Rotation.
Context `{API : CredentialsAPI}.

Lemma no_new_get_exisiting_cm password : no_new (get_exisiting_cm password).
Proof.
  intros w. unfold get_exisiting_cm, try_except.
  assert (Hload : exists r,
             (cm <- CredentialsManager_load password ;; ret (Some cm))%shell w
             = (r, emit (Load (file w) password) w)).
  { unfold bind, CredentialsManager_load, lift, ret, raise.
    destruct (cm_load (file w) password); eauto. }
  destruct Hload as [r ->].
  assert (Hk : forall k : M (option Manager), no_new k ->
            exists evs,
              log (snd (k (emit (Load (file w) password) w))) = log w ++ evs
              /\ Forall (fun e => is_new e = false) evs).
  { intros k Hk.
    destruct (Hk (emit (Load (file w) password) w)) as (evs & Hevs & Hok).
    exists (Load (file w) password :: evs). rewrite Hevs. cbn.
    rewrite <- app_assoc. split; [reflexivity |]. constructor; auto. }
  assert (Hstop : exists evs,
             log (emit (Load (file w) password) w) = log w ++ evs
             /\ Forall (fun e => is_new e = false) evs).
  { exists [Load (file w) password]. split; [reflexivity |].
    repeat constructor. }
  destruct r as [x | e |]; try exact Hstop.
  destruct e; try exact Hstop; apply Hk;
    repeat first [ apply no_new_bind; [| intros _]
                 | apply no_new_print | apply no_new_unlink | apply no_new_ret ].
Qed.

Lemma no_new_update cm old new :
  no_new (CredentialsManager_update_password cm old new).
Proof.
  apply (no_new_event _ (UpdatePassword old new)); [reflexivity |].
  intros w. unfold CredentialsManager_update_password, bind, fresh, lift, ret, raise.
  destruct cm_update_password; reflexivity.
Qed.

Lemma no_new_save cm : no_new (CredentialsManager_save cm).
Proof.
  intros w. eexists. split; [reflexivity |]. repeat constructor.
Qed.

Lemma no_new_new_password_loop fuel : no_new (new_password_loop fuel).
Proof.
  induction fuel as [| fuel IH]; cbn [new_password_loop].
  - apply no_new_silent. reflexivity.
  - apply no_new_bind; [apply no_new_prompt | intros a].
    apply no_new_bind; [apply no_new_prompt | intros b].
    destruct (String.eqb a b); [apply no_new_ret |].
    apply no_new_bind; [apply no_new_print | intros _; exact IH].
Qed.

Lemma no_new_update_password_attempts ixs :
  no_new (update_password_attempts ixs).
Proof.
  induction ixs as [| i ixs IH]; cbn [update_password_attempts].
  - apply no_new_bind; [apply no_new_print | intros _; apply no_new_raise].
  - apply no_new_bind; [apply no_new_prompt | intros p].
    apply no_new_bind; [apply no_new_get_exisiting_cm | intros cm].
    destruct cm; [apply no_new_ret | exact IH].
Qed.

(** The continuation of [update_password] after a validation with a
    password other than the empty string. *)
Lemma update_password_finish_rotates curr_password cm w :
  curr_password <> "" ->
  update_password_finish curr_password (Some cm) w
    = (new_password <- (fun w => new_password_loop (S (length (replies w))) w) ;;
       cm' <- CredentialsManager_update_password cm curr_password new_password ;;
       CredentialsManager_save cm' ;;
       console_print "Password updated successfully" (Some "bold green"))%shell w.
Proof.
  intros Hne. unfold update_password_finish.
  apply String.eqb_neq in Hne. rewrite Hne. reflexivity.
Qed.

Lemma get_exisiting_cm_replies password w :
  replies (snd (get_exisiting_cm password w)) = replies w.
Proof.
  run. destruct (cm_load (file w) password) as [cm | e]; cbn; [reflexivity |].
  destruct e; cbn; try reflexivity; destruct (file w); reflexivity.
Qed.

(** The password the retry loop yields is one of the replies. *)
Lemma update_password_attempts_reply ixs w curr_password cm w1 :
  update_password_attempts ixs w = (Return (curr_password, cm), w1) ->
  curr_password ∈ replies w.
Proof.
  revert w. induction ixs as [| i ixs IH]; intros w H.
  - discriminate.
  - rewrite update_password_attempts_cons in H. unfold bind at 1 in H.
    unfold typer_prompt in H.
    destruct (replies w) as [| r rs] eqn:Hr; [discriminate |].
    unfold bind at 1 in H.
    match type of H with context [get_exisiting_cm r ?w0] =>
      pose proof (get_exisiting_cm_replies r w0) as Hrep;
      destruct (get_exisiting_cm r w0) as [[[cm0 |] | e |] w2]
    end; try discriminate.
    + injection H as <- _ _. apply elem_of_cons. auto.
    + apply IH in H. cbn [snd replies emit] in Hrep. rewrite Hrep in H.
      apply elem_of_cons. auto.
Qed.

(** With the file present at import and replies [typer.prompt] can return,
    [update_password] never builds a new manager. *)
Lemma update_password_no_new (G : Globals) w :
  CREDENTIALS_EXIST G = true ->
  entered w ->
  exists evs,
    log (snd (update_password G w)) = log w ++ evs
    /\ Forall (fun e => is_new e = false) evs.
Proof.
  intros HG Hw. unfold update_password. rewrite HG. unfold bind.
  destruct (no_new_update_password_attempts (range 3) w) as (evs & Hevs & Hok).
  destruct (update_password_attempts (range 3) w) as [[[curr cm] | e |] w1] eqn:Hrun;
    cbn [snd] in Hevs; eauto.
  assert (Hne : curr <> "").
  { apply update_password_attempts_reply in Hrun.
    unfold entered in Hw. rewrite Forall_forall in Hw. apply Hw, Hrun. }
  cbn [fst snd]. rewrite (update_password_finish_rotates curr cm w1 Hne).
  assert (Hrest : no_new
            (new_password <- (fun w => new_password_loop (S (length (replies w))) w) ;;
             cm' <- CredentialsManager_update_password cm curr new_password ;;
             CredentialsManager_save cm' ;;
             console_print "Password updated successfully" (Some "bold green"))%shell).
  { apply no_new_bind; [intros w0; apply no_new_new_password_loop | intros p].
    apply no_new_bind; [apply no_new_update | intros cm'].
    apply no_new_bind; [apply no_new_save | intros _; apply no_new_print]. }
  destruct (Hrest w1) as (evs' & Hevs' & Hok'). exists (evs ++ evs').
  rewrite Hevs', Hevs, app_assoc. split; [reflexivity |].
  apply Forall_app; auto.
Qed.

End Rotation.

(** C8, as amended: [update_password] decides between rotating the loaded
    manager and building a new one by comparing the entered current
    password with the empty string.  [typer.prompt] never returns the empty
    string, so when the file existed at import every password that
    validates passes the test: the command goes on to call
    [update_password] on the loaded manager and to save it, and never
    builds a new manager. *)
Theorem update_password_rotates_loaded `{API : CredentialsAPI} (G : Globals)
    (w : World) :
  CREDENTIALS_EXIST G = true ->
  entered w ->
  (forall curr_password cm w1,
     update_password_attempts (range 3) w = (Return (curr_password, cm), w1) ->
     curr_password <> ""
     /\ update_password G w
        = (new_password <-
             (fun w => new_password_loop (S (length (replies w))) w) ;;
           cm' <- CredentialsManager_update_password cm curr_password
                                                     new_password ;;
           CredentialsManager_save cm' ;;
           console_print "Password updated successfully" (Some "bold green"))%shell
            w1)
  /\ (exists evs,
        log (snd (update_password G w)) = log w ++ evs
        /\ Forall (fun e => is_new e = false) evs)
  /\ (forall curr_password new_password rest cm cm',
        replies w = curr_password :: new_password :: new_password :: rest ->
        cm_load (file w) curr_password = inl cm ->
        cm_update_password cm curr_password new_password (rng w) = inl cm' ->
        let written := cm_save cm' (S (rng w)) in
        update_password G w
          = (Return tt,
             mkWorld (Some written) rest (answers w) (S (S (rng w)))
               (log w ++ [Prompt "Enter current password";
                          Load (file w) curr_password;
                          Prompt "Enter new password";
                          Prompt "Re-enter new password";
                          UpdatePassword curr_password new_password;
                          Save written;
                          Print "Password updated successfully"
                                (Some "bold green")]))).
Proof.
  intros HG Hw. repeat apply conj.
  - intros curr cm w1 Hrun.
    assert (Hne : curr <> "").
    { apply update_password_attempts_reply in Hrun.
      unfold entered in Hw. rewrite Forall_forall in Hw. apply Hw, Hrun. }
    split; [exact Hne |].
    unfold update_password. rewrite HG.
    erewrite bind_return; [| exact Hrun]. cbn [fst snd].
    apply update_password_finish_rotates, Hne.
  - apply update_password_no_new; assumption.
  - intros curr new_password rest cm cm' Hreplies Hload Hupd written.
    assert (Hne : curr <> "").
    { unfold entered in Hw. rewrite Hreplies in Hw.
      apply Forall_cons in Hw as [Hne _]. exact Hne. }
    unfold update_password. rewrite HG.
    erewrite bind_return; cycle 1.
    { rewrite range_3, update_password_attempts_cons.
      erewrite bind_return; [| apply typer_prompt_reply; exact Hreplies].
      erewrite bind_return; [| apply get_exisiting_cm_loaded; exact Hload].
      reflexivity. }
    cbn [fst snd]. unfold update_password_finish.
    erewrite bind_return; [| apply new_password_loop_agree; reflexivity].
    apply String.eqb_neq in Hne. rewrite Hne. cbn [negb].
    erewrite bind_return;
      [| apply CredentialsManager_update_password_run; exact Hupd].
    erewrite bind_return; [| apply CredentialsManager_save_run].
    unfold console_print, emit, written.
    cbn [file replies answers rng log].
    rewrite <- !app_assoc. reflexivity.
Qed.

Lemma update_password_rotates_loaded_witness :
  let w := Samples.start (Some Samples.stored_file)
                         ["hunter2"; "s3cret"; "s3cret"] [] in
  exists evs,
    log (snd (update_password (API := Samples.store) (import_module w) w))
      = log w ++ evs
    /\ Forall (fun e => is_new e = false) evs.
Proof.
  intros w.
  destruct (update_password_rotates_loaded (API := Samples.store)
              (import_module w) w) as (_ & H & _).
  - reflexivity.
  - repeat constructor; discriminate.
  - exact H.
Defined.

(** ** The existence flag *)



(** On the reference store, that second [load] raises [FileNotFoundError],
    which no clause of [get_exisiting_cm] handles: the command ends with the
    exception, the file gone. *)
Example update_password_on_corrupted_file :
  let w := Samples.start (Some Samples.corrupted_file) ["hunter2"; "hunter2"] [] in
  let r := update_password (API := Samples.store) (import_module w) w in
  fst r = Raise (FileNotFoundError "No such file or directory")
  /\ file (snd r) = None.
Proof. vm_compute. split; reflexivity. Qed.

(** ** A first run *)

(** On a machine without a credentials file, [credentials] creates the
    store; the file then loads under the password to the two credentials. *)
Example credentials_first_run :
  let w := Samples.start None [] [] in
  let r := credentials (API := Samples.store) (import_module w)
                       "sk-1" "ghp-2" "hunter2" w in
  fst r = Return tt
  /\ exists image,
       file (snd r) = Some image
       /\ Core.loaded_mapping (P := Reference.primitives) image "hunter2"
          = Some (<["github_token" := "ghp-2"]> {[ "openai_api_key" := "sk-1" ]})
       /\ Core.loaded_mapping (P := Reference.primitives) image "letmein" = None.
Proof.
  split; [reflexivity |]. eexists.
  split; [vm_compute; reflexivity |]. split; vm_compute; reflexivity.
Qed.

(** * Further properties of the shell *)

(** ** What validation leaves alone *)

(** X1: [get_exisiting_cm] reads nothing the user types, draws no randomness
    and never writes the file; the file is gone afterwards only when [load]
    raised [TypeError] or [ValueError]. *)
Theorem get_exisiting_cm_frame `{API : CredentialsAPI} (w : World)
    (password : string) :
  let w' := snd (get_exisiting_cm password w) in
  replies w' = replies w
  /\ answers w' = answers w
  /\ rng w' = rng w
  /\ (file w' = file w
      \/ (file w' = None
          /\ exists msg, cm_load (file w) password = inr (TypeError msg)
                         \/ cm_load (file w) password = inr (ValueError msg))).
Proof.
  cbv zeta. run.
  destruct (cm_load (file w) password) as [cm | e] eqn:Hload; cbn;
    [auto 10 |].
  destruct e; cbn; auto 10; destruct (file w); cbn; eauto 10.
Qed.

Lemma never_writes_bind {A B} (m : M A) (k : A -> M B) :
  never_writes m -> (forall x, never_writes (k x)) -> never_writes (bind m k).
Proof.
  intros Hm Hk w. unfold bind. destruct (Hm w) as [Hf Hr].
  destruct (m w) as [[x | e |] w1]; cbn in *; [| auto ..].
  destruct (Hk x w1) as [Hf' Hr']. split; [| congruence].
  destruct Hf' as [-> | ->]; auto.
Qed.

Lemma never_writes_ret {A} (a : A) : never_writes (ret a).
Proof. intros w. cbn. auto. Qed.

Lemma never_writes_raise {A} e : never_writes (@raise A e).
Proof. intros w. cbn. auto. Qed.

Lemma never_writes_print text style : never_writes (console_print text style).
Proof. intros w. cbn. auto. Qed.

Lemma never_writes_prompt text : never_writes (typer_prompt text).
Proof. intros w. unfold typer_prompt. destruct (replies w); cbn; auto. Qed.

Lemma never_writes_confirm text : never_writes (typer_confirm text).
Proof. intros w. unfold typer_confirm. destruct (answers w); cbn; auto. Qed.

Lemma never_writes_unlink : never_writes os_unlink.
Proof. intros w. unfold os_unlink. destruct (file w) eqn:E; cbn; auto. Qed.

Lemma never_writes_get_exisiting_cm `{API : CredentialsAPI} password :
  never_writes (get_exisiting_cm password).
Proof.
  intros w. run.
  destruct (cm_load (file w) password) as [cm | e]; cbn; [auto |].
  destruct e; cbn; auto; destruct (file w) eqn:E; cbn; auto.
Qed.

Lemma never_writes_delete_credentials_attempts `{API : CredentialsAPI} ixs :
  never_writes (delete_credentials_attempts ixs).
Proof.
  induction ixs as [| i ixs IH]; cbn [delete_credentials_attempts].
  - apply never_writes_bind;
      [apply never_writes_print | intros _; apply never_writes_raise].
  - apply never_writes_bind; [apply never_writes_prompt | intros p].
    apply never_writes_bind; [apply never_writes_get_exisiting_cm | intros cm].
    destruct cm; [| exact IH].
    apply never_writes_bind;
      [apply never_writes_unlink | intros _; apply never_writes_print].
Qed.

(** ** Deleting the credentials *)

(** X8: [delete_credentials] never creates or rewrites the file and draws no
    randomness: after any run the path holds what it held before, or
    nothing. *)
Theorem delete_credentials_never_writes `{API : CredentialsAPI} (G : Globals)
    (w : World) :
  (file (snd (delete_credentials G w)) = file w
   \/ file (snd (delete_credentials G w)) = None)
  /\ rng (snd (delete_credentials G w)) = rng w.
Proof.
  revert w. change (never_writes (delete_credentials G)).
  unfold delete_credentials. destruct (CREDENTIALS_EXIST G); cbn [negb].
  - apply never_writes_bind; [apply never_writes_confirm | intros d].
    destruct d; cbn [negb];
      [apply never_writes_delete_credentials_attempts | apply never_writes_raise].
  - apply never_writes_print.
Qed.

Lemma unlinks_confirmed_true l : unlinks_confirmed true l = true.
Proof. induction l as [| [] l IH]; cbn; auto. Qed.

Lemma unlinks_confirmed_app_confirm c l text l' :
  unlinks_confirmed c l = true ->
  unlinks_confirmed c (l ++ Confirm text :: l') = true.
Proof.
  revert c. induction l as [| e l IH]; intros c H.
  - cbn. apply unlinks_confirmed_true.
  - destruct e; cbn in *; auto.
    apply andb_true_iff in H as [-> H]. cbn. auto.
Qed.

Lemma unlinks_confirmed_app_print c l text style :
  unlinks_confirmed c l = true ->
  unlinks_confirmed c (l ++ [Print text style]) = true.
Proof.
  revert c. induction l as [| e l IH]; intros c H.
  - reflexivity.
  - destruct e; cbn in *; auto.
    apply andb_true_iff in H as [-> H]. cbn. auto.
Qed.

(** X9: In [delete_credentials], the file is never unlinked before the user was
    asked to confirm: if every [Unlink] logged so far came after a
    [Confirm], the same holds of the log after the command. *)
Theorem delete_credentials_unlinks_confirmed `{API : CredentialsAPI}
    (G : Globals) (w : World) :
  unlinks_confirmed false (log w) = true ->
  unlinks_confirmed false (log (snd (delete_credentials G w))) = true.
Proof.
  intros H. unfold delete_credentials. destruct (CREDENTIALS_EXIST G); cbn [negb].
  - match goal with |- context [bind ?m ?k w] =>
      destruct (bind_extends m k w) as [evs Hevs] end.
    { intros d. destruct d; cbn [negb];
        [apply appends_delete_credentials_attempts | apply appends_raise]. }
    rewrite Hevs. unfold typer_confirm.
    destruct (answers w); cbn [snd log emit];
      rewrite <- app_assoc; cbn [app];
      apply unlinks_confirmed_app_confirm, H.
  - cbn. apply unlinks_confirmed_app_print, H.
Qed.

Lemma delete_credentials_unlinks_confirmed_witness :
  let w := Samples.start (Some Samples.corrupted_file) ["hunter2"] [true] in
  unlinks_confirmed false
    (log (snd (delete_credentials (API := Samples.store) (import_module w) w)))
  = true.
Proof.
  apply (delete_credentials_unlinks_confirmed (API := Samples.store)).
  reflexivity.
Defined.

(** ** Choosing the new password *)

Lemma div2_le n : Nat.div2 n <= n.
Proof.
  pose proof (Nat.div2_odd n) as H. destruct (Nat.odd n); cbn in H; lia.
Qed.

Section NewPassword.

Lemma new_password_loop_retry fuel w a b rest :
  replies w = a :: b :: rest ->
  String.eqb a b = false ->
  new_password_loop (S fuel) w
    = new_password_loop fuel
        (mkWorld (file w) rest (answers w) (rng w)
           (log w ++ round_prompts
                  ++ [Print ("Passwords do not match. Retry" +:+ LF)
                            (Some "bold red")])).
Proof.
  intros Hr Hne. cbn [new_password_loop].
  erewrite bind_return; [| apply typer_prompt_reply; exact Hr].
  erewrite bind_return; [| apply typer_prompt_reply; reflexivity].
  rewrite Hne. unfold bind, console_print, emit.
  cbn [file replies answers rng log round_prompts app].
  rewrite <- !app_assoc. reflexivity.
Qed.

Lemma new_password_loop_returns fuel skipped w p rest :
  replies w = skipped ++ p :: p :: rest ->
  mismatched skipped = true ->
  Nat.div2 (length skipped) < fuel ->
  new_password_loop fuel w
    = (Return p,
       mkWorld (file w) rest (answers w) (rng w)
         (log w ++ retried_rounds (Nat.div2 (length skipped)) ++ round_prompts)).
Proof.
  revert skipped w. induction fuel as [| fuel IH]; intros skipped w Hr Hm Hlt;
    [exfalso; exact (Nat.nlt_0_r _ Hlt) |].
  destruct skipped as [| a [| b skipped]]; [| discriminate |].
  - apply new_password_loop_agree. exact Hr.
  - cbn [mismatched] in Hm. apply andb_true_iff in Hm as [Hne Hm].
    apply negb_true_iff in Hne.
    rewrite (new_password_loop_retry fuel w a b (skipped ++ p :: p :: rest))
      by assumption.
    rewrite (IH skipped); [| reflexivity | exact Hm | cbn in Hlt; lia].
    cbn [file replies answers rng log length Nat.div2 retried_rounds].
    rewrite <- !app_assoc. reflexivity.
Qed.

Lemma new_password_loop_returned fuel w p w' :
  new_password_loop fuel w = (Return p, w') ->
  exists skipped,
    replies w = skipped ++ p :: p :: replies w'
    /\ mismatched skipped = true
    /\ w' = mkWorld (file w) (replies w') (answers w) (rng w)
              (log w ++ retried_rounds (Nat.div2 (length skipped))
                     ++ round_prompts).
Proof.
  revert w. induction fuel as [| fuel IH]; intros w H; [discriminate |].
  destruct (replies w) as [| a [| b rest]] eqn:Hr.
  - cbn [new_password_loop] in H. unfold bind, typer_prompt in H.
    rewrite Hr in H. discriminate.
  - cbn [new_password_loop] in H.
    erewrite bind_return in H; [| apply typer_prompt_reply; exact Hr].
    unfold bind, typer_prompt in H. cbn [replies] in H. discriminate.
  - destruct (String.eqb a b) eqn:Hab.
    + apply String.eqb_eq in Hab as <-.
      rewrite (new_password_loop_agree fuel w a rest Hr) in H.
      injection H as <- <-. exists []. cbn. auto.
    + rewrite (new_password_loop_retry fuel w a b rest Hr Hab) in H.
      apply IH in H as (skipped & Hs & Hm & ->).
      cbn [replies file answers rng log] in *.
      exists (a :: b :: skipped). split; [cbn; congruence |].
      split; [cbn [mismatched]; rewrite Hab, Hm; reflexivity |].
      cbn [length Nat.div2 retried_rounds]. rewrite <- !app_assoc.
      reflexivity.
Qed.

Lemma new_password_loop_frame fuel w :
  file (snd (new_password_loop fuel w)) = file w
  /\ rng (snd (new_password_loop fuel w)) = rng w
  /\ answers (snd (new_password_loop fuel w)) = answers w.
Proof.
  revert w. induction fuel as [| fuel IH]; intros w; [cbn; auto |].
  destruct (replies w) as [| a [| b rest]] eqn:Hr.
  - cbn [new_password_loop]. unfold bind, typer_prompt. rewrite Hr. cbn. auto.
  - cbn [new_password_loop].
    erewrite bind_return; [| apply typer_prompt_reply; exact Hr].
    unfold bind, typer_prompt. cbn. auto.
  - destruct (String.eqb a b) eqn:Hab.
    + apply String.eqb_eq in Hab as <-.
      rewrite (new_password_loop_agree fuel w a rest Hr). cbn. auto.
    + rewrite (new_password_loop_retry fuel w a b rest Hr Hab).
      match goal with |- context [new_password_loop fuel ?w1] =>
        destruct (IH w1) as (Hf & Hg & Ha) end.
      cbn [file rng answers] in Hf, Hg, Ha. auto.
Qed.

Lemma new_password_loop_raises fuel w e w' :
  new_password_loop fuel w = (Raise e, w') -> e = Abort /\ replies w' = [].
Proof.
  revert w. induction fuel as [| fuel IH]; intros w H; [discriminate |].
  destruct (replies w) as [| a [| b rest]] eqn:Hr.
  - cbn [new_password_loop] in H. unfold bind, typer_prompt in H.
    rewrite Hr in H. injection H as <- <-. cbn. auto.
  - cbn [new_password_loop] in H.
    erewrite bind_return in H; [| apply typer_prompt_reply; exact Hr].
    unfold bind, typer_prompt in H. cbn [replies] in H.
    injection H as <- <-. cbn. auto.
  - destruct (String.eqb a b) eqn:Hab.
    + apply String.eqb_eq in Hab as <-.
      rewrite (new_password_loop_agree fuel w a rest Hr) in H. discriminate.
    + rewrite (new_password_loop_retry fuel w a b rest Hr Hab) in H.
      apply IH in H. exact H.
Qed.

End NewPassword.

(** X3: The [while True] loop of [update_password] yields a password only when
    it was typed twice in a row, after rounds whose two entries differ, each
    answered with "Passwords do not match. Retry"; it returns in the first
    round whose entries agree; it raises nothing but [typer.Abort], when
    the input has run out; and it always ends.  However it ends, the file,
    the random source and the pending answers are as they were. *)
Theorem new_password_loop_confirms (w : World) :
  let loop := new_password_loop (S (length (replies w))) in
  (forall skipped p rest,
     replies w = skipped ++ p :: p :: rest ->
     mismatched skipped = true ->
     loop w = (Return p,
               mkWorld (file w) rest (answers w) (rng w)
                 (log w ++ retried_rounds (Nat.div2 (length skipped))
                        ++ round_prompts)))
  /\ (forall p w',
        loop w = (Return p, w') ->
        exists skipped,
          replies w = skipped ++ p :: p :: replies w'
          /\ mismatched skipped = true
          /\ w' = mkWorld (file w) (replies w') (answers w) (rng w)
                    (log w ++ retried_rounds (Nat.div2 (length skipped))
                           ++ round_prompts))
  /\ (forall e w', loop w = (Raise e, w') -> e = Abort /\ replies w' = [])
  /\ fst (loop w) <> OutOfFuel
  /\ (file (snd (loop w)) = file w
      /\ rng (snd (loop w)) = rng w
      /\ answers (snd (loop w)) = answers w).
Proof.
  cbv zeta. repeat apply conj.
  - intros skipped p rest Hr Hm. apply new_password_loop_returns; auto.
    rewrite Hr, length_app. pose proof (div2_le (length skipped)). lia.
  - apply new_password_loop_returned.
  - apply new_password_loop_raises.
  - apply new_password_loop_fuel. lia.
  - apply new_password_loop_frame.
  - apply new_password_loop_frame.
  - apply new_password_loop_frame.
Qed.

Lemma new_password_loop_confirms_witness :
  let w := Samples.start None ["a"; "b"; "s3cret"; "s3cret"; "later"] [] in
  new_password_loop (S (length (replies w))) w
  = (Return "s3cret",
     mkWorld None ["later"] [] 2
       ([] ++ retried_rounds (Nat.div2 (length ["a"; "b"])) ++ round_prompts)).
Proof.
  intros w.
  destruct (new_password_loop_confirms w) as [H _].
  apply (H ["a"; "b"] "s3cret" ["later"]); reflexivity.
Defined.

(** ** Storing the credentials *)

(** X2: [credentials] saves once.  When the file did not exist at import it
    builds a new manager under the given password without calling [load],
    and what it saves replaces whatever the path holds.  When the file
    existed and the password validates, it is the loaded manager that gets
    the two keys, [openai_api_key] first, and is saved. *)
Theorem credentials_saves `{API : CredentialsAPI} (G : Globals) (w : World)
    (openai_api_key github_token password : string) :
  (CREDENTIALS_EXIST G = false ->
   let cm := cm_setitem
               (cm_setitem (cm_new password (rng w))
                           "openai_api_key" openai_api_key)
               "github_token" github_token in
   let written := cm_save cm (S (rng w)) in
   credentials G openai_api_key github_token password w
     = (Return tt,
        mkWorld (Some written) (replies w) (answers w) (S (S (rng w)))
          (log w ++ [New password; Save written;
                     Print "Credentials securely saved" (Some "bold green")])))
  /\ (forall loaded,
        CREDENTIALS_EXIST G = true ->
        cm_load (file w) password = inl loaded ->
        let cm := cm_setitem
                    (cm_setitem loaded "openai_api_key" openai_api_key)
                    "github_token" github_token in
        let written := cm_save cm (rng w) in
        credentials G openai_api_key github_token password w
          = (Return tt,
             mkWorld (Some written) (replies w) (answers w) (S (rng w))
               (log w ++ [Load (file w) password; Save written;
                          Print "Credentials securely saved"
                                (Some "bold green")]))).
Proof.
  split.
  - intros HG cm written. unfold credentials. rewrite HG.
    erewrite bind_return; [| apply CredentialsManager_new_run].
    unfold credentials_store.
    erewrite bind_return; [| apply CredentialsManager_save_run].
    unfold console_print, emit, written, cm.
    cbn [file replies answers rng log]. rewrite <- !app_assoc. reflexivity.
  - intros loaded HG Hload cm written. unfold credentials. rewrite HG.
    erewrite bind_return; [| apply get_exisiting_cm_loaded; exact Hload].
    unfold credentials_store.
    erewrite bind_return; [| apply CredentialsManager_save_run].
    unfold console_print, emit, written, cm.
    cbn [file replies answers rng log]. rewrite <- !app_assoc. reflexivity.
Qed.

Lemma credentials_saves_witness :
  let w := Samples.start (Some Samples.stored_file) [] [] in
  let cm := Core.set (Core.set (P := Reference.primitives)
                        (Core.mkManager (Core.mapping Samples.stored_manager)
                           (Core.cur_kdf Samples.stored_manager)
                           (Core.cur_salt Samples.stored_manager)
                           (Core.cur_key Samples.stored_manager))
                        "openai_api_key" "sk-9")
                     "github_token" "ghp-9" in
  let written := Core.save cm 2 in
  credentials (API := Samples.store) (import_module w) "sk-9" "ghp-9" "hunter2" w
  = (Return tt,
     mkWorld (Some written) [] [] 3
       ([] ++ [Load (Some Samples.stored_file) "hunter2"; Save written;
               Print "Credentials securely saved" (Some "bold green")])).
Proof.
  intros w cm written.
  destruct (credentials_saves (API := Samples.store) (import_module w) w
              "sk-9" "ghp-9" "hunter2") as [_ H].
  apply H.
  - reflexivity.
  - vm_compute. reflexivity.
Defined.

(** ** Changing the password without a file *)

(** X4: When the file did not exist at import, [update_password] asks whether
    to create a password.  On "no" it returns having done nothing else.  On
    "yes" it asks for the new password until two entries agree, builds a new
    manager under it and saves it; [load] is never called. *)
Theorem update_password_without_file `{API : CredentialsAPI} (G : Globals)
    (w : World) :
  CREDENTIALS_EXIST G = false ->
  (forall more,
     answers w = false :: more ->
     update_password G w
       = (Return tt,
          mkWorld (file w) (replies w) more (rng w)
            (log w ++ [Print "There are no existing passwords to update"
                             (Some "bold red");
                       Confirm "Would you like to create one?"])))
  /\ (forall more skipped new_password rest,
        answers w = true :: more ->
        replies w = skipped ++ new_password :: new_password :: rest ->
        mismatched skipped = true ->
        let written := cm_save (cm_new new_password (rng w)) (S (rng w)) in
        update_password G w
          = (Return tt,
             mkWorld (Some written) rest more (S (S (rng w)))
               (log w ++ [Print "There are no existing passwords to update"
                                (Some "bold red");
                          Confirm "Would you like to create one?"]
                      ++ retried_rounds (Nat.div2 (length skipped))
                      ++ round_prompts
                      ++ [New new_password; Save written;
                          Print "Password updated successfully"
                                (Some "bold green")]))).
Proof.
  intros HG. split.
  - intros more Ha. unfold update_password. rewrite HG.
    unfold bind at 1. unfold console_print at 1.
    erewrite bind_return; [| apply typer_confirm_answer; exact Ha].
    cbn [negb]. unfold ret, emit. cbn [file replies answers rng log].
    rewrite <- !app_assoc. reflexivity.
  - intros more skipped p rest Ha Hr Hm written. unfold update_password.
    rewrite HG. unfold bind at 1. unfold console_print at 1.
    erewrite bind_return; [| apply typer_confirm_answer; exact Ha].
    cbn [negb]. unfold update_password_finish.
    erewrite bind_return; cycle 1.
    { apply (new_password_loop_returns _ skipped _ p rest);
        [exact Hr | exact Hm |].
      cbn [replies emit]. rewrite Hr, length_app.
      pose proof (div2_le (length skipped)). lia. }
    cbn [String.eqb negb].
    erewrite bind_return; [| apply CredentialsManager_new_run].
    erewrite bind_return; [| apply CredentialsManager_save_run].
    unfold console_print, emit, written.
    cbn [file replies answers rng log]. rewrite <- !app_assoc. reflexivity.
Qed.

Lemma update_password_without_file_witness :
  let w := Samples.start None ["a"; "b"; "s3cret"; "s3cret"] [true] in
  let written := Core.save (Core.create (P := Reference.primitives) "s3cret" 2) 3 in
  update_password (API := Samples.store) (import_module w) w
  = (Return tt,
     mkWorld (Some written) [] [] 4
       ([] ++ [Print "There are no existing passwords to update" (Some "bold red");
               Confirm "Would you like to create one?"]
           ++ retried_rounds (Nat.div2 (length ["a"; "b"]))
           ++ round_prompts
           ++ [New "s3cret"; Save written;
               Print "Password updated successfully" (Some "bold green")])).
Proof.
  intros w written.
  destruct (update_password_without_file (API := Samples.store)
              (import_module w) w eq_refl) as [_ H].
  apply (H [] ["a"; "b"] "s3cret" []); reflexivity.
Defined.

(** ** Wrong passwords *)

Section WrongPasswords.
Context `{API : CredentialsAPI}.

(** One attempt that [load] answers with [IncorrectPasswordError]. *)
Lemma wrong_attempt_update i ixs w p rest message :
  replies w = p :: rest ->
  cm_load (file w) p = inr (IncorrectPasswordError message) ->
  update_password_attempts (i :: ixs) w
    = update_password_attempts ixs
        (mkWorld (file w) rest (answers w) (rng w)
           (log w ++ wrong_password_events "Enter current password" i
                       (file w) p message)).
Proof.
  intros Hr Hload. rewrite update_password_attempts_cons.
  erewrite bind_return; [| apply typer_prompt_reply; exact Hr].
  erewrite bind_return; [| apply get_exisiting_cm_incorrect; exact Hload].
  cbn [file replies answers rng log wrong_password_events].
  rewrite <- !app_assoc. reflexivity.
Qed.

Lemma wrong_attempt_delete i ixs w p rest message :
  replies w = p :: rest ->
  cm_load (file w) p = inr (IncorrectPasswordError message) ->
  delete_credentials_attempts (i :: ixs) w
    = delete_credentials_attempts ixs
        (mkWorld (file w) rest (answers w) (rng w)
           (log w ++ wrong_password_events "Enter your password" i
                       (file w) p message)).
Proof.
  intros Hr Hload. rewrite delete_credentials_attempts_cons.
  erewrite bind_return; [| apply typer_prompt_reply; exact Hr].
  erewrite bind_return; [| apply get_exisiting_cm_incorrect; exact Hload].
  cbn [file replies answers rng log wrong_password_events].
  rewrite <- !app_assoc. reflexivity.
Qed.

End WrongPasswords.

(** X5: Three passwords that [load] rejects with [IncorrectPasswordError] end
    [update_password], and [delete_credentials] once confirmed, with
    [typer.Abort] after the three prompts, each followed by the message of
    the exception; the file and the random source are as they were and
    nothing typed after the three passwords is read. *)
Theorem three_wrong_passwords `{API : CredentialsAPI} (G : Globals) (w : World)
    (p1 p2 p3 m1 m2 m3 : string) (rest : list string) :
  CREDENTIALS_EXIST G = true ->
  replies w = p1 :: p2 :: p3 :: rest ->
  cm_load (file w) p1 = inr (IncorrectPasswordError m1) ->
  cm_load (file w) p2 = inr (IncorrectPasswordError m2) ->
  cm_load (file w) p3 = inr (IncorrectPasswordError m3) ->
  update_password G w
    = (Raise Abort,
       mkWorld (file w) rest (answers w) (rng w)
         (log w
          ++ wrong_password_events "Enter current password" 0 (file w) p1 m1
          ++ wrong_password_events "Enter current password" 1 (file w) p2 m2
          ++ wrong_password_events "Enter current password" 2 (file w) p3 m3
          ++ [Print "Too many incorrect attempts." (Some "bold red")]))
  /\ (forall more,
        answers w = true :: more ->
        delete_credentials G w
          = (Raise Abort,
             mkWorld (file w) rest more (rng w)
               (log w
                ++ [Confirm "Are you sure you want to delete your credentials?"]
                ++ wrong_password_events "Enter your password" 0 (file w) p1 m1
                ++ wrong_password_events "Enter your password" 1 (file w) p2 m2
                ++ wrong_password_events "Enter your password" 2 (file w) p3 m3
                ++ [Print "Too many incorrect attempts." (Some "bold red")]))).
Proof.
  intros HG Hr H1 H2 H3. split.
  - unfold update_password. rewrite HG. unfold bind at 1. rewrite range_3.
    rewrite (wrong_attempt_update 0 _ w p1 _ m1 Hr H1).
    erewrite wrong_attempt_update; [| reflexivity | exact H2].
    erewrite wrong_attempt_update; [| reflexivity | exact H3].
    cbn [update_password_attempts]. unfold bind, console_print, raise, emit.
    cbn [file replies answers rng log]. rewrite <- !app_assoc. reflexivity.
  - intros more Ha. unfold delete_credentials. rewrite HG. cbn [negb].
    erewrite bind_return; [| apply typer_confirm_answer; exact Ha].
    cbn [negb]. rewrite range_3.
    erewrite wrong_attempt_delete; [| exact Hr | exact H1].
    erewrite wrong_attempt_delete; [| reflexivity | exact H2].
    erewrite wrong_attempt_delete; [| reflexivity | exact H3].
    cbn [delete_credentials_attempts]. unfold bind, console_print, raise, emit.
    cbn [file replies answers rng log]. rewrite <- !app_assoc. reflexivity.
Qed.

Lemma three_wrong_passwords_witness :
  let w := Samples.start (Some Samples.stored_file)
                         ["letmein"; "password"; "123456"; "hunter2"] [true] in
  file (snd (update_password (API := Samples.store) (import_module w) w))
    = Some Samples.stored_file
  /\ fst (delete_credentials (API := Samples.store) (import_module w) w)
     = Raise Abort
  /\ file (snd (delete_credentials (API := Samples.store) (import_module w) w))
     = Some Samples.stored_file.
Proof.
  intros w.
  destruct (three_wrong_passwords (API := Samples.store) (import_module w) w
              "letmein" "password" "123456"
              "Incorrect password" "Incorrect password" "Incorrect password"
              ["hunter2"] eq_refl eq_refl)
    as [Hu Hd]; [vm_compute; reflexivity .. |].
  rewrite Hu, (Hd [] eq_refl). repeat split.
Defined.

(** ** Deleting the credentials, case by case *)

(** X6: [delete_credentials] does nothing but print when the file did not exist
    at import, even if the path holds a file by now; and when the user
    answers "no" it raises [typer.Abort] at once, without asking for the
    password and with the file as it was. *)
Theorem delete_credentials_refused `{API : CredentialsAPI} (G : Globals)
    (w : World) :
  (CREDENTIALS_EXIST G = false ->
   delete_credentials G w
     = (Return tt,
        mkWorld (file w) (replies w) (answers w) (rng w)
          (log w ++ [Print "There are no credentials to delete"
                           (Some "bold red")])))
  /\ (forall more,
        CREDENTIALS_EXIST G = true ->
        answers w = false :: more ->
        delete_credentials G w
          = (Raise Abort,
             mkWorld (file w) (replies w) more (rng w)
               (log w ++ [Confirm "Are you sure you want to delete your credentials?"]))).
Proof.
  split.
  - intros HG. unfold delete_credentials. rewrite HG. reflexivity.
  - intros more HG Ha. unfold delete_credentials. rewrite HG. cbn [negb].
    erewrite bind_return; [| apply typer_confirm_answer; exact Ha].
    reflexivity.
Qed.

Lemma delete_credentials_refused_witness :
  let w := Samples.start (Some Samples.stored_file) ["hunter2"] [false] in
  delete_credentials (API := Samples.store) (import_module w) w
  = (Raise Abort,
     mkWorld (Some Samples.stored_file) ["hunter2"] [] 2
       ([] ++ [Confirm "Are you sure you want to delete your credentials?"])).
Proof.
  intros w.
  destruct (delete_credentials_refused (API := Samples.store) (import_module w) w)
    as [_ H].
  apply H; reflexivity.
Defined.

(** X7: Once confirmed, a password that validates at the first attempt makes
    [delete_credentials] unlink the file and print the success message; no
    further password is asked. *)
Theorem delete_credentials_deletes `{API : CredentialsAPI} (G : Globals)
    (w : World) (password : string) (rest : list string) (more : list bool)
    (cm : Manager) (content : bytes) :
  CREDENTIALS_EXIST G = true ->
  answers w = true :: more ->
  replies w = password :: rest ->
  file w = Some content ->
  cm_load (file w) password = inl cm ->
  delete_credentials G w
    = (Return tt,
       mkWorld None rest more (rng w)
         (log w ++ [Confirm "Are you sure you want to delete your credentials?";
                    Prompt "Enter your password";
                    Load (Some content) password;
                    Unlink;
                    Print "Credentials deleted successfully" (Some "bold green")])).
Proof.
  intros HG Ha Hr Hf Hload. unfold delete_credentials. rewrite HG. cbn [negb].
  erewrite bind_return; [| apply typer_confirm_answer; exact Ha].
  cbn [negb]. rewrite range_3, delete_credentials_attempts_cons.
  erewrite bind_return; [| apply typer_prompt_reply; exact Hr].
  erewrite bind_return; [| apply get_exisiting_cm_loaded; exact Hload].
  unfold bind, os_unlink, console_print, emit.
  cbn [file replies answers rng log]. rewrite Hf.
  cbn [file replies answers rng log]. rewrite <- !app_assoc. reflexivity.
Qed.

Lemma delete_credentials_deletes_witness :
  let w := Samples.start (Some Samples.stored_file) ["hunter2"] [true] in
  delete_credentials (API := Samples.store) (import_module w) w
  = (Return tt,
     mkWorld None [] [] 2
       ([] ++ [Confirm "Are you sure you want to delete your credentials?";
               Prompt "Enter your password";
               Load (Some Samples.stored_file) "hunter2";
               Unlink;
               Print "Credentials deleted successfully" (Some "bold green")])).
Proof.
  intros w.
  apply (delete_credentials_deletes (API := Samples.store) (import_module w) w
           "hunter2" [] []
           (Core.mkManager (Core.mapping Samples.stored_manager)
              (Core.cur_kdf Samples.stored_manager)
              (Core.cur_salt Samples.stored_manager)
              (Core.cur_key Samples.stored_manager))
           Samples.stored_file); reflexivity.
Defined.

(** X10: On a corrupted file, the first attempt of [delete_credentials] unlinks
    the file inside [get_exisiting_cm]; the loop goes on, asks for the
    password a second time and calls [load] on the path that is gone. *)
Theorem delete_credentials_on_corrupted_file `{API : CredentialsAPI}
    (G : Globals) (w : World) (content : bytes) (p1 p2 msg : string)
    (rest : list string) (more : list bool) :
  CREDENTIALS_EXIST G = true ->
  answers w = true :: more ->
  replies w = p1 :: p2 :: rest ->
  file w = Some content ->
  cm_load (Some content) p1 = inr (TypeError msg)
  \/ cm_load (Some content) p1 = inr (ValueError msg) ->
  exists evs,
    log (snd (delete_credentials G w))
      = log w
        ++ Confirm "Are you sure you want to delete your credentials?"
        :: Prompt "Enter your password"
        :: corruption_events (Some content) p1 msg
        ++ Prompt "Enter your password (Attempt 2 / 3)"
        :: Load None p2 :: evs.
Proof.
  intros HG Ha Hr Hf Hload. unfold delete_credentials. rewrite HG. cbn [negb].
  starts_with (log w
               ++ Confirm "Are you sure you want to delete your credentials?"
               :: Prompt "Enter your password"
               :: corruption_events (Some content) p1 msg
               ++ [Prompt "Enter your password (Attempt 2 / 3)"; Load None p2]).
  erewrite bind_return; [| apply typer_confirm_answer; exact Ha].
  cbn [negb]. rewrite range_3, delete_credentials_attempts_cons.
  erewrite bind_return; [| apply typer_prompt_reply; exact Hr].
  erewrite bind_return; cycle 1.
  { destruct Hload as [Hload | Hload].
    - apply (get_exisiting_cm_corrupted _ p1 (TypeError msg) content);
        cbn [file str_exn]; rewrite ?Hf; auto.
    - apply (get_exisiting_cm_corrupted _ p1 (ValueError msg) content);
        cbn [file str_exn]; rewrite ?Hf; auto. }
  rewrite delete_credentials_attempts_cons.
  erewrite bind_return; [| apply typer_prompt_reply; reflexivity].
  apply bind_first.
  { intros [cm |]; [frame | apply appends_delete_credentials_attempts]. }
  match goal with |- context [get_exisiting_cm p2 ?w1] =>
    destruct (get_exisiting_cm_first p2 w1) as [evs Hevs] end.
  exists evs. rewrite Hevs. cbn [file log str_exn corruption_events app].
  rewrite <- !app_assoc. reflexivity.
Qed.

Lemma delete_credentials_on_corrupted_file_witness :
  let w := Samples.start (Some Samples.corrupted_file) ["hunter2"; "hunter2"] [true] in
  exists evs,
    log (snd (delete_credentials (API := Samples.store) (import_module w) w))
      = log w
        ++ Confirm "Are you sure you want to delete your credentials?"
        :: Prompt "Enter your password"
        :: corruption_events (Some Samples.corrupted_file) "hunter2"
                             "malformed credentials file"
        ++ Prompt "Enter your password (Attempt 2 / 3)"
        :: Load None "hunter2" :: evs.
Proof.
  intros w.
  apply (delete_credentials_on_corrupted_file (API := Samples.store)
           (import_module w) w Samples.corrupted_file "hunter2" "hunter2"
           "malformed credentials file" [] []); try reflexivity.
  right. vm_compute. reflexivity.
Defined.

(** ** Runs that save nothing *)

Lemma new_password_loop_runs_out fuel skipped tail w :
  replies w = skipped ++ tail ->
  mismatched skipped = true ->
  length tail <= 1 ->
  Nat.div2 (length skipped) < fuel ->
  exists w',
    new_password_loop fuel w = (Raise Abort, w')
    /\ file w' = file w /\ rng w' = rng w /\ answers w' = answers w
    /\ replies w' = [].
Proof.
  revert skipped w. induction fuel as [| fuel IH]; intros skipped w Hr Hm Ht Hlt;
    [exfalso; exact (Nat.nlt_0_r _ Hlt) |].
  destruct skipped as [| a [| b skipped]]; [| discriminate |].
  - cbn [app] in Hr. cbn [new_password_loop].
    destruct tail as [| t [| ? ?]]; [| | cbn in Ht; lia].
    + unfold bind, typer_prompt. rewrite Hr. eexists. split; [reflexivity |].
      cbn. auto.
    + erewrite bind_return; [| apply typer_prompt_reply; exact Hr].
      unfold bind, typer_prompt. cbn [replies]. eexists.
      split; [reflexivity |]. cbn. auto.
  - cbn [mismatched] in Hm. apply andb_true_iff in Hm as [Hne Hm].
    apply negb_true_iff in Hne.
    rewrite (new_password_loop_retry fuel w a b (skipped ++ tail))
      by assumption.
    destruct (IH skipped
                (mkWorld (file w) (skipped ++ tail) (answers w) (rng w)
                   (log w ++ round_prompts
                          ++ [Print ("Passwords do not match. Retry" +:+ LF)
                                    (Some "bold red")])))
      as (w' & Hrun & Hfile & Hrng & Hans & Hrep);
      [reflexivity | exact Hm | exact Ht | cbn in Hlt; lia |].
    exists w'. auto.
Qed.

(** X11: [update_password] changes the password only once the new one was
    confirmed: with a current password that validates, when the input ends
    before two entries for the new password agree, the command raises
    [typer.Abort] and the file and the random source are as they were. *)
Theorem update_password_unconfirmed `{API : CredentialsAPI} (G : Globals)
    (w : World) (curr_password : string) (skipped tail : list string)
    (cm : Manager) :
  CREDENTIALS_EXIST G = true ->
  replies w = curr_password :: skipped ++ tail ->
  mismatched skipped = true ->
  length tail <= 1 ->
  cm_load (file w) curr_password = inl cm ->
  fst (update_password G w) = Raise Abort
  /\ file (snd (update_password G w)) = file w
  /\ rng (snd (update_password G w)) = rng w
  /\ replies (snd (update_password G w)) = [].
Proof.
  intros HG Hr Hm Ht Hload.
  assert (Heq : exists w',
             update_password G w = (Raise Abort, w')
             /\ file w' = file w /\ rng w' = rng w /\ replies w' = []).
  { unfold update_password. rewrite HG.
    erewrite bind_return; cycle 1.
    { rewrite range_3, update_password_attempts_cons.
      erewrite bind_return; [| apply typer_prompt_reply; exact Hr].
      erewrite bind_return; [| apply get_exisiting_cm_loaded; exact Hload].
      reflexivity. }
    cbn [fst snd]. unfold update_password_finish. unfold bind at 1.
    match goal with |- context [new_password_loop ?fuel ?w1] =>
      destruct (new_password_loop_runs_out fuel skipped tail w1)
        as (w' & -> & Hfile & Hrng & _ & Hrep) end;
      [reflexivity | exact Hm | exact Ht | |].
    - cbn [replies emit]. rewrite length_app.
      pose proof (div2_le (length skipped)). lia.
    - exists w'. cbn [file rng emit] in Hfile, Hrng. auto. }
  destruct Heq as (w' & -> & Hfile & Hrng & Hrep). auto.
Qed.

Lemma update_password_unconfirmed_witness :
  let w := Samples.start (Some Samples.stored_file)
                         ["hunter2"; "s3cret"; "s3cert"; "s3cret"] [] in
  fst (update_password (API := Samples.store) (import_module w) w) = Raise Abort
  /\ file (snd (update_password (API := Samples.store) (import_module w) w))
     = file w
  /\ rng (snd (update_password (API := Samples.store) (import_module w) w))
     = rng w
  /\ replies (snd (update_password (API := Samples.store) (import_module w) w))
     = [].
Proof.
  intros w.
  apply (update_password_unconfirmed (API := Samples.store) (import_module w) w
           "hunter2" ["s3cret"; "s3cert"] ["s3cret"]
           (Core.mkManager (Core.mapping Samples.stored_manager)
              (Core.cur_kdf Samples.stored_manager)
              (Core.cur_salt Samples.stored_manager)
              (Core.cur_key Samples.stored_manager)));
    reflexivity.
Defined.

(** X12: On a corrupted file, [credentials] returns normally after
    [get_exisiting_cm] has unlinked the file: the key and the token just
    entered are not saved, and no file is left at the path. *)
Theorem credentials_on_corrupted_file `{API : CredentialsAPI} (G : Globals)
    (w : World) (openai_api_key github_token password msg : string)
    (content : bytes) :
  CREDENTIALS_EXIST G = true ->
  file w = Some content ->
  cm_load (file w) password = inr (TypeError msg)
  \/ cm_load (file w) password = inr (ValueError msg) ->
  credentials G openai_api_key github_token password w
    = (Return tt,
       mkWorld None (replies w) (answers w) (rng w)
         (log w ++ corruption_events (Some content) password msg)).
Proof.
  intros HG Hf Hload. unfold credentials. rewrite HG.
  erewrite bind_return; cycle 1.
  { destruct Hload as [Hload | Hload].
    - apply (get_exisiting_cm_corrupted w password (TypeError msg) content);
        cbn [str_exn]; auto.
    - apply (get_exisiting_cm_corrupted w password (ValueError msg) content);
        cbn [str_exn]; auto. }
  reflexivity.
Qed.

Lemma credentials_on_corrupted_file_witness :
  let w := Samples.start (Some Samples.corrupted_file) [] [] in
  credentials (API := Samples.store) (import_module w) "sk-9" "ghp-9" "hunter2" w
  = (Return tt,
     mkWorld None [] [] 2
       ([] ++ corruption_events (Some Samples.corrupted_file) "hunter2"
                                "malformed credentials file")).
Proof.
  intros w.
  apply (credentials_on_corrupted_file (API := Samples.store) (import_module w) w
           "sk-9" "ghp-9" "hunter2" "malformed credentials file"
           Samples.corrupted_file); try reflexivity.
  right. vm_compute. reflexivity.
Defined.

(** ** A store no reply unlocks *)

(** When [load] rejects every pending reply with [IncorrectPasswordError],
    the retry loop of [update_password] ends with an exception and the file
    as it was. *)
Lemma update_password_attempts_rejected `{API : CredentialsAPI} ixs w :
  (forall p, p ∈ replies w ->
     exists message, cm_load (file w) p = inr (IncorrectPasswordError message)) ->
  exists e w',
    update_password_attempts ixs w = (Raise e, w') /\ file w' = file w.
Proof.
  revert w. induction ixs as [| i ixs IH]; intros w Hrej.
  - eexists _, _. split; reflexivity.
  - destruct (replies w) as [| p rest] eqn:Hr.
    + rewrite update_password_attempts_cons. unfold bind, typer_prompt.
      rewrite Hr. eexists _, _. split; reflexivity.
    + destruct (Hrej p) as [message Hload];
        [rewrite ?Hr; apply elem_of_cons; auto |].
      rewrite (wrong_attempt_update i ixs w p rest message Hr Hload).
      match goal with |- context [update_password_attempts ixs ?w1] =>
        destruct (IH w1) as (e & w' & Hrun & Hfile) end.
      { cbn [replies file]. intros q Hq. apply Hrej. rewrite ?Hr.
        apply elem_of_cons. auto. }
      exists e, w'. split; [exact Hrun | exact Hfile].
Qed.
End ShellFacts.

(** * The reference primitives meet the contracts *)

Module ReferenceFacts.
Import Reference.

Lemma unframes_frame payload rest :
  unframes (frame payload ++ rest) = cons payload <$> unframes rest.
Proof.
  unfold frame. rewrite <- app_assoc. cbn [app].
  induction payload as [| b payload IH]; cbn [map concat app].
  - reflexivity.
  - unfold escape at 1.
    destruct (Byte.eqb b x00) eqn:H0.
    + apply byte_dec_bl in H0 as ->. cbn. rewrite IH.
      destruct (unframes rest); reflexivity.
    + destruct (Byte.eqb b x01) eqn:H1.
      * apply byte_dec_bl in H1 as ->. cbn. rewrite IH.
        destruct (unframes rest); reflexivity.
      * cbn [app unframes]. rewrite H0, H1, IH.
        destruct (unframes rest); reflexivity.
Qed.

Lemma unframes_frames l : unframes (frames l) = Some l.
Proof.
  unfold frames. induction l as [| f l IH]; cbn [map concat].
  - reflexivity.
  - rewrite unframes_frame. fold (frames l). unfold frames. rewrite IH.
    reflexivity.
Qed.

Lemma frames_inj l l' : frames l = frames l' -> l = l'.
Proof.
  intros H. apply (f_equal unframes) in H. rewrite !unframes_frames in H.
  congruence.
Qed.

Lemma pairs_fields (kvs : list (string * string)) :
  pairs (concat (map (fun kv : string * string =>
                        [String.list_byte_of_string kv.1;
                         String.list_byte_of_string kv.2]) kvs))
  = Some kvs.
Proof.
  induction kvs as [| [k v] kvs IH]; cbn [map concat app pairs fst snd].
  - reflexivity.
  - rewrite IH, !String.string_of_list_byte_of_string. reflexivity.
Qed.

Lemma decode_encode (m : gmap string string) : decode (encode m) = Some m.
Proof.
  unfold decode, encode, fields. rewrite unframes_frames. cbn [mbind option_bind].
  rewrite pairs_fields. cbn [mbind option_bind]. f_equal.
  apply list_to_map_to_list.
Qed.

Lemma open_seal k n plaintext : open k n (seal k n plaintext) = Some plaintext.
Proof.
  unfold open, seal. rewrite unframes_frames.
  destruct (decide (k = k /\ n = n)) as [_ | Hne]; [reflexivity |].
  exfalso; apply Hne; split; reflexivity.
Qed.

Lemma open_wrong_key k k' n sealed plaintext :
  open k n sealed = Some plaintext -> k' <> k -> open k' n sealed = None.
Proof.
  unfold open. intros H Hne.
  destruct (unframes sealed) as [[| k0 [| n0 [| p0 [| ? ?]]]] |]; try discriminate.
  destruct (decide (k0 = k /\ n0 = n)) as [[-> ->] |]; [| discriminate].
  destruct (decide (k = k' /\ n = n)) as [[-> _] |]; [congruence | reflexivity].
Qed.

Lemma read_write (e : Core.Envelope) :
  Core.version e = current_version -> read (write e) = Some e.
Proof.
  intros Hv. unfold read, write. rewrite unframes_frames.
  destruct (decide (Core.version e = current_version)); [| contradiction].
  destruct e as [v [a c] s n ct]. reflexivity.
Qed.

Lemma derive_distinct password password' s params :
  derive password s params = derive password' s params -> password = password'.
Proof.
  unfold derive. intros H. apply frames_inj in H. injection H as H.
  rewrite <- (String.string_of_list_byte_of_string password),
          <- (String.string_of_list_byte_of_string password'), H.
  reflexivity.
Qed.

Lemma contracts : Core.Contracts primitives.
Proof.
  constructor.
  - exact decode_encode.
  - exact open_seal.
  - exact open_wrong_key.
  - apply read_write.
Qed.


(** Every key of the primitives with fixed-length keys has 32 bytes. *)
Lemma derive_fixed_length password salt kdf :
  length (derive_fixed password salt kdf) = key_length.
Proof.
  unfold derive_fixed. rewrite length_take, length_app, length_replicate. lia.
Qed.

(** The empty mapping, an empty key, an empty value and text outside ASCII
    go through the codec. *)
Example decode_encode_samples :
  decode (encode ∅) = Some ∅
  /\ decode (encode (<["" := "x"]> (<["clé" := ""]> (<["名前" := "値 ✓"]> ∅))))
     = Some (<["" := "x"]> (<["clé" := ""]> (<["名前" := "値 ✓"]> ∅))).
Proof. split; vm_compute; reflexivity. Qed.

(** Bytes that are no frames, or an odd number of frames, are malformed. *)
Example decode_malformed :
  decode [x05] = None /\ decode (frames [[x05]]) = None.
Proof. split; reflexivity. Qed.

End ReferenceFacts.

(** * Properties of the store *)

Module CoreFacts.
Import Core.

Section Store.
Context `{P : Primitives} {laws : Contracts P}.

(** A manager whose key is the one its password derives from its salt and
    parameters. *)
Lemma load_save (m : Manager) (password : string) (r : nat) :
  cur_key m = derive password (cur_salt m) (cur_kdf m) ->
  load (save m r) password = inl m.
Proof.
  intros Hkey. unfold load, save.
  rewrite read_write by reflexivity. unfold envelope_of.
  cbn [salt kdf nonce ciphertext]. rewrite <- Hkey, open_seal, decode_encode.
  destruct m; reflexivity.
Qed.

(** A password that derives another key than the manager's. *)
Lemma load_save_other_key (m : Manager) (password' : string) (r : nat) :
  derive password' (cur_salt m) (cur_kdf m) <> cur_key m ->
  load (save m r) password' = inr IncorrectPassword.
Proof.
  intros Hne. unfold load, save.
  rewrite read_write by reflexivity. unfold envelope_of.
  cbn [salt kdf nonce ciphertext].
  rewrite (open_wrong_key (cur_key m) _ _ _ (encode (mapping m)));
    [reflexivity | apply open_seal | exact Hne].
Qed.

Lemma create_key password r :
  cur_key (create password r)
    = derive password (cur_salt (create password r)) (cur_kdf (create password r)).
Proof. reflexivity. Qed.






(** *** Keys of a fixed length collide *)

(** Among more passwords than there are keys, two derive the same key. *)
Lemma collision_or_NoDup (f : string -> key) (ps : list string) :
  NoDup ps ->
  (exists p p', p ∈ ps /\ p' ∈ ps /\ p <> p' /\ f p = f p')
  \/ NoDup (f <$> ps).
Proof.
  induction 1 as [| p ps Hp Hnd IH]; [right; constructor |].
  destruct IH as [(q & q' & Hq & Hq' & Hne & Heq) | IH].
  { left. exists q, q'. rewrite !elem_of_cons. auto. }
  destruct (decide (f p ∈ f <$> ps)) as [Hin | Hnin].
  - left. apply list_elem_of_fmap in Hin as (q & Heq & Hq).
    exists p, q. rewrite !elem_of_cons. repeat split; auto.
    intros ->. contradiction.
  - right. cbn. constructor; assumption.
Qed.

Lemma passwords_collide (keys : list key) (s : bytes) (params : KdfParameters) :
  (forall password, derive password s params ∈ keys) ->
  exists p p', p <> p' /\ derive p s params = derive p' s params.
Proof.
  intros Hkeys.
  destruct (collision_or_NoDup (fun p => derive p s params)
              (pretty <$> seq 0 (S (length keys))))
    as [(p & p' & _ & _ & Hne & Heq) | Hnd]; [| eauto |].
  - apply (NoDup_fmap_2 _), NoDup_seq.
  - exfalso.
    assert (Hle : length ((fun p => derive p s params)
                            <$> (pretty <$> seq 0 (S (length keys))))
                  <= length keys).
    { apply submseteq_length, NoDup_submseteq; [exact Hnd |].
      intros k Hk. apply list_elem_of_fmap in Hk as (p & -> & _).
      apply Hkeys. }
    rewrite !length_fmap, length_seq in Hle. lia.
Qed.

(** So a store whose keys range over finitely many values has a file that
    loads under two passwords. *)
Lemma two_passwords_load (keys : list key) :
  (forall password s params, derive password s params ∈ keys) ->
  exists image p p' m,
    p <> p' /\ load image p = inl m /\ load image p' = inl m.
Proof.
  intros Hkeys.
  destruct (passwords_collide keys (random_salt 0) current_kdf)
    as (p & p' & Hne & Heq); [intros; apply Hkeys |].
  exists (save (create p 0) 1), p, p', (create p 0).
  split; [exact Hne |]. split.
  - apply load_save, create_key.
  - apply load_save. cbn. exact Heq.
Qed.

End Store.

(** ** Wrong password *)




(** ** Changing the password *)




(** ** Atomic replacement *)

(** Steps that leave every path but [tmp] alone. *)
Lemma fs_run_app ops ops' (s : gmap string bytes) :
  fs_run (ops ++ ops') s = fs_run ops' (fs_run ops s).
Proof. unfold fs_run. apply foldl_app. Qed.

Lemma fs_run_writes tmp content old (s : gmap string bytes) :
  s !! tmp = Some old ->
  fs_run (map (WriteByte tmp) content) s !! tmp = Some (old ++ content).
Proof.
  revert old s. induction content as [| b content IH]; intros old s Hs.
  - cbn. rewrite app_nil_r. exact Hs.
  - cbn [map fs_run foldl fs_step]. rewrite Hs.
    change (foldl fs_step ?s' (map (WriteByte tmp) content))
      with (fs_run (map (WriteByte tmp) content) s').
    rewrite (IH (old ++ [b])) by apply lookup_insert_eq.
    rewrite <- app_assoc. reflexivity.
Qed.

Lemma fs_run_writes_other tmp target content (s : gmap string bytes) :
  tmp <> target ->
  fs_run (map (WriteByte tmp) content) s !! target = s !! target.
Proof.
  intros Hne. revert s. induction content as [| b content IH]; intros s.
  - reflexivity.
  - cbn [map fs_run foldl fs_step].
    change (foldl fs_step ?s' (map (WriteByte tmp) content))
      with (fs_run (map (WriteByte tmp) content) s').
    rewrite IH. destruct (s !! tmp); [apply lookup_insert_ne, Hne | reflexivity].
Qed.

Lemma take_writes tmp n content :
  take n (map (WriteByte tmp) content) = map (WriteByte tmp) (take n content).
Proof. symmetry. apply fmap_take. Qed.

(** C5: [save] is atomic for an observer of the target path.  Interrupted
    after any number of steps, the path holds what it held before or all of
    the new envelope; it holds the old contents up to the rename, which is
    the last step, and the new envelope once [save] has run. *)
Theorem save_is_atomic `{P : Primitives} (m : Manager) (r : nat)
    (tmp target : string) (s : gmap string bytes) :
  tmp <> target ->
  (forall n,
     interrupted n (save_steps m r tmp target) s !! target = s !! target
     \/ interrupted n (save_steps m r tmp target) s !! target = Some (save m r))
  /\ (forall n, n < length (save_steps m r tmp target) ->
        interrupted n (save_steps m r tmp target) s !! target = s !! target)
  /\ fs_run (save_steps m r tmp target) s !! target = Some (save m r).
Proof.
  intros Hne. unfold save_steps, write_atomically, interrupted.
  set (content := save m r).
  assert (Hbefore : forall n, n <= S (S (length content)) ->
            fs_run (take n (OpenTemp tmp :: map (WriteByte tmp) content
                            ++ [Flush tmp; Rename tmp target])) s !! target
            = s !! target).
  { intros n Hn. destruct n as [| n]; [reflexivity |].
    cbn [take fs_run foldl fs_step].
    change (foldl fs_step ?s' ?ops) with (fs_run ops s').
    rewrite take_app. rewrite take_writes, fs_run_app, length_map.
    assert (Htail : take (n - length content) [Flush tmp; Rename tmp target] = []
                    \/ take (n - length content) [Flush tmp; Rename tmp target]
                       = [Flush tmp]).
    { destruct (n - length content) as [| [| k]] eqn:Hk; cbn; auto. lia. }
    destruct Htail as [-> | ->]; cbn [fs_run foldl fs_step];
      rewrite fs_run_writes_other by exact Hne;
      apply lookup_insert_ne, Hne. }
  assert (Hafter : fs_run (OpenTemp tmp :: map (WriteByte tmp) content
                           ++ [Flush tmp; Rename tmp target]) s !! target
                   = Some content).
  { cbn [fs_run foldl fs_step].
    change (foldl fs_step ?s' ?ops) with (fs_run ops s').
    rewrite fs_run_app. cbn [fs_run foldl fs_step].
    rewrite (fs_run_writes tmp content []) by apply lookup_insert_eq.
    apply lookup_insert_eq. }
  assert (Hlen : length (OpenTemp tmp :: map (WriteByte tmp) content
                         ++ [Flush tmp; Rename tmp target])
                 = S (S (S (length content)))).
  { cbn [length]. rewrite length_app, length_map. cbn. lia. }
  repeat split.
  - intros n. destruct (decide (n <= S (S (length content)))) as [Hn | Hn].
    + left. apply Hbefore, Hn.
    + right. rewrite take_ge by lia. exact Hafter.
  - intros n Hn. apply Hbefore. lia.
  - exact Hafter.
Qed.

Lemma save_is_atomic_witness :
  let s : gmap string bytes := {[ "credentials" := Samples.stored_file ]} in
  let steps := save_steps (P := Reference.primitives) Samples.unprotected_manager 4
                          "credentials.tmp" "credentials" in
  (forall n,
     interrupted n steps s !! "credentials" = s !! "credentials"
     \/ interrupted n steps s !! "credentials"
        = Some (save Samples.unprotected_manager 4))
  /\ (forall n, n < length steps ->
        interrupted n steps s !! "credentials" = s !! "credentials")
  /\ fs_run steps s !! "credentials" = Some (save Samples.unprotected_manager 4).
Proof.
  apply (save_is_atomic (P := Reference.primitives) Samples.unprotected_manager 4
           "credentials.tmp" "credentials"
           {[ "credentials" := Samples.stored_file ]}).
  discriminate.
Defined.

End CoreFacts.

(** * The shell on the reference store *)

Module StoreRuns.
Import Shell.

(** The file saved under the empty password rejects every other password. *)
Lemma unprotected_rejects (p : string) :
  p <> "" ->
  cm_load (CredentialsAPI := Samples.store) (Some Samples.unprotected_file) p
    = inr (IncorrectPasswordError "Incorrect password").
Proof.
  intros Hne. cbn [cm_load Samples.store Core.api].
  unfold Samples.unprotected_file.
  rewrite (CoreFacts.load_save_other_key (laws := ReferenceFacts.contracts));
    [reflexivity |].
  intros H. apply ReferenceFacts.derive_distinct in H. contradiction.
Qed.

(** C8, as stated, fails: with a file stored under the empty password, no
    replies that [typer.prompt] can return make [update_password] build a
    new manager or change the file; the stored credentials are never
    discarded. *)
Lemma empty_password_store_kept :
  ~ exists typed answered,
      Forall (fun r => r <> "") typed
      /\ let w := Samples.start (Some Samples.unprotected_file) typed answered in
         let w' := snd (update_password (API := Samples.store)
                                        (import_module w) w) in
         (exists p, New p ∈ log w') \/ file w' <> Some Samples.unprotected_file.
Proof.
  intros (typed & answered & Hok & [[p Hin] | Hfile]).
  - destruct (ShellFacts.update_password_no_new (API := Samples.store)
                (import_module
                   (Samples.start (Some Samples.unprotected_file) typed answered))
                (Samples.start (Some Samples.unprotected_file) typed answered)
                eq_refl Hok) as (evs & Hevs & Hnn).
    rewrite Hevs in Hin. cbn [Samples.start log app] in Hin.
    rewrite Forall_forall in Hnn. specialize (Hnn _ Hin). discriminate.
  - apply Hfile. unfold update_password.
    change (CREDENTIALS_EXIST
              (import_module
                 (Samples.start (Some Samples.unprotected_file) typed answered)))
      with true.
    unfold bind.
    destruct (ShellFacts.update_password_attempts_rejected
                (API := Samples.store) (range 3)
                (Samples.start (Some Samples.unprotected_file) typed answered))
      as (e & w' & -> & Hf).
    + intros q Hq. exists "Incorrect password". apply unprotected_rejects.
      rewrite Forall_forall in Hok. apply Hok, Hq.
    + exact Hf.
Qed.

End StoreRuns.
